(** * bencharch_footer.cpp: the benchmark driver of the Faust compiler bench tool

    A shallow embedding of [main] of [src/bencharch_footer.cpp]: the command
    line, the warmup and the timed sampling loop, and the percentile-trimmed
    mean.  A C++ [double] is a binary64 float of Rocq ([PrimFloat.float], whose
    operations are those of IEEE 754, specified by [SpecFloat]); a [size_t]
    is a [Z] in [0, 2^64) with its wrap-around written out; a [long] is a [Z]
    in [-2^63, 2^63); [std::vector<double>] is a [list] read by index, where
    a read past the end is reported instead of performed.  The kernel under
    test, the clock and [strtod] are parameters of the driver. *)

From Stdlib Require Import ZArith List Lia Bool Floats Uint63.
From Stdlib Require String Ascii.
Import ListNotations.
Open Scope Z_scope.

(** ** Machine integers *)

(** [size_t] on the 64-bit targets of the tool. *)
Module Size.
Definition modulus : Z := 2 ^ 64.
Definition max : Z := modulus - 1.
Definition wrap (z : Z) : Z := z mod modulus.
Definition sub (a b : Z) : Z := wrap (a - b).
Definition succ (a : Z) : Z := wrap (a + 1).
End Size.

Module Long.
Definition LONG_MAX : Z := 2 ^ 63 - 1.
Definition LONG_MIN : Z := - 2 ^ 63.
End Long.

(** ** Doubles *)

Definition double : Type := float.

(** The conversion of a [size_t] to [double] rounds to nearest, ties to
    even.  Below 2^63 it is the primitive conversion of a 63-bit integer. *)
Definition double_of_size_t (n : Z) : double :=
  if n <? 2 ^ 63 then PrimFloat.of_uint63 (Uint63.of_Z n)
  else SF2Prim (binary_normalize prec emax n 0 false).

(** Truncation toward zero of a finite float; [None] on infinities and NaN. *)
Definition SFtrunc (x : spec_float) : option Z :=
  match x with
  | S754_zero _ => Some 0
  | S754_finite s m e =>
      let a := match e with
               | Z0 => Zpos m
               | Zpos _ => Z.shiftl (Zpos m) e
               | Zneg _ => Z.shiftr (Zpos m) (- e)
               end in
      Some (if s then - a else a)
  | S754_infinity _ | S754_nan => None
  end.

(** [static_cast<size_t>(x)]: the fractional part is discarded; the
    behaviour is undefined ([None]) when the truncated value is not a
    [size_t]. *)
Definition size_t_of_double (x : double) : option Z :=
  match SFtrunc (Prim2SF x) with
  | Some z => if (0 <=? z) && (z <=? Size.max) then Some z else None
  | None => None
  end.

(** ** Vectors *)

Definition vector : Type := list double.

Definition size (v : vector) : Z := Z.of_nat (length v).

(** [v[i]]: [None] when [i] is not an index of [v]. *)
Definition at_index (v : vector) (i : Z) : option double :=
  if (0 <=? i) && (i <? size v) then nth_error v (Z.to_nat i) else None.

(** [std::sort(v.begin(), v.end())] with [operator<] on doubles.  The
    result of [std::sort] is determined by the values up to the order of
    equivalent elements; the model inserts each element before the first
    one that is not smaller. *)
Fixpoint insert_sorted (x : double) (l : vector) : vector :=
  match l with
  | [] => [x]
  | y :: l' => if (y <? x)%float then y :: insert_sorted x l' else x :: l
  end.

Fixpoint std_sort (v : vector) : vector :=
  match v with
  | [] => []
  | x :: v' => insert_sorted x (std_sort v')
  end.

(** No element is smaller than its predecessor. *)
Fixpoint ascending (v : vector) : bool :=
  match v with
  | [] => true
  | x :: v' =>
      match v' with
      | [] => true
      | y :: _ => negb (y <? x)%float && ascending v'
      end
  end.

(** ** The estimator (lines 121-140) *)

Inductive outcome : Type :=
| Result (r : double)
| BadConversion            (* static_cast<size_t> of a value that is no size_t *)
| OutOfBounds (i : Z)      (* measurements[i] with i >= measurements.size() *)
| OutOfFuel.

(** [static_cast<size_t>((measurements.size() * percentile) / 100.0)] *)
Definition percentile_index (n : Z) (percentile : double) : option Z :=
  size_t_of_double ((double_of_size_t n * percentile) / 100)%float.

Record range : Type := mkRange {
  lower_index : Z;
  upper_index : Z;
  sample_size : Z
}.

(** Lines 128-133, from the two indices as computed. *)
Definition valid_range (n lower0 upper0 : Z) : range :=
  let upper := if upper0 >=? n then Size.sub n 1 else upper0 in
  let lower :=
    if lower0 >=? upper then (if upper >? 0 then Size.sub upper 1 else 0)
    else lower0 in
  let ssize := Size.sub upper lower in
  let ssize := if ssize <? 1 then 1 else ssize in
  mkRange lower upper ssize.

(** Lines 125-133. *)
Definition percentile_range (n : Z) (lower_percentile upper_percentile : double)
  : option range :=
  match percentile_index n lower_percentile,
        percentile_index n upper_percentile with
  | Some lower0, Some upper0 => Some (valid_range n lower0 upper0)
  | _, _ => None
  end.

(** Lines 136-139: [for (size_t i = lower; i < upper; i++) sum += v[i]].
    Every pass reads one more element, so [S (length v)] passes of fuel
    are never used up. *)
Fixpoint sum_loop (fuel : nat) (v : vector) (i upper : Z) (sum : double)
  : outcome :=
  if i <? upper then
    match fuel with
    | O => OutOfFuel
    | S fuel' =>
        match at_index v i with
        | Some x => sum_loop fuel' v (Size.succ i) upper (sum + x)%float
        | None => OutOfBounds i
        end
    end
  else Result sum.

(** Lines 125-140 on the sorted vector. *)
Definition trimmed_mean (v : vector) (lower_percentile upper_percentile : double)
  : outcome :=
  match percentile_range (size v) lower_percentile upper_percentile with
  | Some r =>
      match sum_loop (S (length v)) v (lower_index r) (upper_index r) 0%float with
      | Result sum => Result (sum / double_of_size_t (sample_size r))%float
      | o => o
      end
  | None => BadConversion
  end.

(** The estimator sorts the caller's vector in place: it returns the
    vector as it leaves it, with the result. *)
Definition estimator (measurements : vector)
  (lower_percentile upper_percentile : double) : outcome * vector :=
  let sorted := std_sort measurements in
  (trimmed_mean sorted lower_percentile upper_percentile, sorted).

Definition estimate (measurements : vector) (lower upper : double) : outcome :=
  fst (estimator measurements lower upper).

(** A percentile band as the estimator's contract has it:
    0 <= lower < upper < 100. *)
Definition valid_band (lower upper : double) : bool :=
  ((0 <=? lower) && (lower <? upper) && (upper <? 100))%float.




(** ** The estimator as section 4.2 of the specification words it *)




(** The samples with index in the half-open range [[lowerIndex, upperIndex)]. *)
Definition slice (v : vector) (lowerIndex upperIndex : Z) : vector :=
  firstn (Z.to_nat (upperIndex - lowerIndex)) (skipn (Z.to_nat lowerIndex) v).


(** ** The C library: [strtol] and [strtod] *)

Module C.
Import String Ascii.

(** [isspace] in the "C" locale. *)
Definition isspace (c : ascii) : bool :=
  let n := nat_of_ascii c in
  (n =? 32)%nat || ((9 <=? n)%nat && (n <=? 13)%nat).

Definition digit (c : ascii) : option Z :=
  let n := nat_of_ascii c in
  if ((48 <=? n)%nat && (n <=? 57)%nat) then Some (Z.of_nat n - 48) else None.

Record strtol_result : Type := mkStrtol {
  sl_value : Z;          (* the value returned *)
  sl_consumed : nat;     (* endptr - nptr *)
  sl_erange : bool       (* errno == ERANGE after the call *)
}.

Fixpoint skip_space (s : string) : nat * string :=
  match s with
  | String c s' =>
      if isspace c then let (k, r) := skip_space s' in (S k, r) else (O, s)
  | EmptyString => (O, s)
  end.

(** The decimal digits at the head of [s]: their value after [acc], and
    how many there are. *)
Fixpoint digits (s : string) (acc : Z) : Z * nat :=
  match s with
  | String c s' =>
      match digit c with
      | Some d => let (v, k) := digits s' (10 * acc + d) in (v, S k)
      | None => (acc, O)
      end
  | EmptyString => (acc, O)
  end.

(** [strtol(nptr, &endptr, 10)] with [errno] cleared before the call. *)
Definition strtol (nptr : string) : strtol_result :=
  let (spaces, s) := skip_space nptr in
  let '(negative, signs, s) :=
    match s with
    | String "-"%char s' => (true, 1%nat, s')
    | String "+"%char s' => (false, 1%nat, s')
    | _ => (false, 0%nat, s)
    end in
  let (magnitude, count) := digits s 0 in
  match count with
  | O => mkStrtol 0 0 false
  | S _ =>
      let value := if negative then - magnitude else magnitude in
      let consumed := (spaces + signs + count)%nat in
      if value >? Long.LONG_MAX then mkStrtol Long.LONG_MAX consumed true
      else if value <? Long.LONG_MIN then mkStrtol Long.LONG_MIN consumed true
      else mkStrtol value consumed false
  end.

(** What a call of [strtod(nptr, &endptr)] leaves. *)
Record strtod_result : Type := mkStrtod {
  sd_value : double;
  sd_consumed : nat;     (* endptr - nptr *)
  sd_errno : bool        (* errno != 0 after the call *)
}.

End C.

(** ** The driver: [main] *)

(** What the kernel under test and the clock are seen to do. *)
Inductive event : Type :=
| Compute               (* d->compute(NBSAMPLES, inputs, outputs) *)
| Now (ticks : Z).      (* high_resolution_clock::now() *)

(** The lines [main] writes to [std::cerr]. *)
Inductive message : Type :=
| Usage
| ConversionError (arg : String.string)
| NoDigits (arg : String.string)
| InvalidUpper (arg : String.string)
| UpperOutOfRange
| InvalidLower (arg : String.string)
| LowerOutOfRange
| LowerNotLess.

(** How the process ends. *)
Inductive ending : Type :=
| Return (status : Z)
| Terminate                 (* std::length_error out of reserve, not caught *)
| Undefined (o : outcome).  (* the estimator left defined behaviour *)

Section Driver.

(** The default iteration count, a macro of the generated benchmark. *)
Variable NBITERATIONS : Z.

(** The kernel under test with its buffers: [new mydsp()], [init(44100)] and
    the zeroed buffers with their impulse give [fresh]. *)
Variable Kernel : Type.
Variable fresh : Kernel.
Variable compute : Kernel -> Kernel.

(** The k-th reading of [high_resolution_clock], in ticks, and a number of
    ticks as a [std::chrono::duration<double>], that is in seconds. *)
Variable clock : nat -> Z.
Variable seconds : Z -> double.

Variable strtod : String.string -> C.strtod_result.

Record world : Type := mkWorld {
  kernel : Kernel;
  readings : nat;           (* readings of the clock so far *)
  trace : list event        (* oldest first *)
}.

Definition invoke (w : world) : world :=
  mkWorld (compute (kernel w)) (readings w) (trace w ++ [Compute]).

Definition now (w : world) : Z * world :=
  let t := clock (readings w) in
  (t, mkWorld (kernel w) (S (readings w)) (trace w ++ [Now t])).

(** Lines 104-107. *)
Fixpoint warmup (n : nat) (w : world) : world :=
  match n with
  | O => w
  | S n' => warmup n' (invoke w)
  end.

(** Lines 113-119, [n] passes to go. *)
Fixpoint measure (n : nat) (w : world) (measurements : vector) : vector * world :=
  match n with
  | O => (measurements, w)
  | S n' =>
      let (start, w1) := now w in
      let w2 := invoke w1 in
      let (end_, w3) := now w2 in
      measure n' w3 (measurements ++ [seconds (end_ - start)])
  end.

(** Lines 104-119 for a count that is not negative.  [reserve] only sets
    the capacity of the vector, and the allocation is taken to succeed. *)
Definition sampler (N : Z) (w : world) : vector * world :=
  measure (Z.to_nat N) (warmup 50 w) [].

(** The sample of the i-th timed call after [k] readings of the clock. *)
Definition sample_at (k i : nat) : double :=
  seconds (clock (k + 2 * i + 1) - clock (k + 2 * i)).

(** What the i-th timed call adds to the trace. *)
Definition timed_call (k i : nat) : list event :=
  [Now (clock (k + 2 * i)); Compute; Now (clock (k + 2 * i + 1))].

(** [measurements.reserve(N)] with a negative [N]: the count, converted to
    [size_t], is above [max_size()] and [std::length_error] is thrown. *)
Definition reserve_throws (N : Z) : bool := N <? 0.

Definition count_compute (t : list event) : nat :=
  length (filter (fun e => match e with Compute => true | Now _ => false end) t).

Record run : Type := mkRun {
  ending_of : ending;
  cerr : list message;
  cout : list (String.string * double);   (* argv[0] and the milliseconds *)
  events : list event
}.

Definition reject (m : message) : run := mkRun (Return 1) [m] [] [].

(** Lines 18-34. *)
Definition parse_iterations (argv : list String.string) : Z + message :=
  match nth_error argv 1 with
  | None => inl NBITERATIONS
  | Some arg =>
      let r := C.strtol arg in
      let val := C.sl_value r in
      if (C.sl_erange r && ((val =? Long.LONG_MAX) || (val =? Long.LONG_MIN)))
         || (C.sl_erange r && (val =? 0))
      then inr (ConversionError arg)
      else if (C.sl_consumed r =? 0)%nat then inr (NoDigits arg)
      else inl val
  end.

(** Lines 36-52. *)
Definition parse_upper (argv : list String.string) : double + message :=
  match nth_error argv 2 with
  | None => inl 10%float
  | Some arg =>
      let r := strtod arg in
      let val := C.sd_value r in
      if C.sd_errno r || (C.sd_consumed r =? 0)%nat then inr (InvalidUpper arg)
      else if (val <=? 0)%float || (100 <? val)%float then inr UpperOutOfRange
      else inl val
  end.

(** Lines 54-70. *)
Definition parse_lower (argv : list String.string) : double + message :=
  match nth_error argv 3 with
  | None => inl 1%float
  | Some arg =>
      let r := strtod arg in
      let val := C.sd_value r in
      if C.sd_errno r || (C.sd_consumed r =? 0)%nat then inr (InvalidLower arg)
      else if (val <? 0)%float || (100 <=? val)%float then inr LowerOutOfRange
      else inl val
  end.

(** Lines 77-155, the arguments accepted. *)
Definition benchmark (argv0 : String.string) (N : Z)
  (lower_percentile upper_percentile : double) : run :=
  let w0 := mkWorld fresh 0 [] in
  if reserve_throws N then mkRun Terminate [] [] (trace (warmup 50 w0))
  else
    let (measurements, w) := sampler N w0 in
    match estimate measurements lower_percentile upper_percentile with
    | Result result =>
        mkRun (Return 0) [] [(argv0, (result * 1000)%float)] (trace w)
    | o => mkRun (Undefined o) [] [] (trace w)
    end.

Definition main (argv : list String.string) : run :=
  if (4 <? length argv)%nat then reject Usage
  else
    match parse_iterations argv with
    | inr m => reject m
    | inl N =>
        match parse_upper argv with
        | inr m => reject m
        | inl upper_percentile =>
            match parse_lower argv with
            | inr m => reject m
            | inl lower_percentile =>
                if (upper_percentile <=? lower_percentile)%float
                then reject LowerNotLess
                else benchmark (nth 0 argv String.EmptyString) N
                       lower_percentile upper_percentile
            end
        end
    end.

End Driver.

(** ** Binary64 rounding, read on integers

    The primitive operations are specified by [SpecFloat]: an operation
    computes an integer [m], an exponent [e] and the location of the exact
    value between [m] and [m + 1], and [binary_round_aux] rounds that to
    the nearest float, ties to even.  The definitions below read the
    rounding on one integer, the code [K = 4 * m + location]; on codes the
    shift, the rounding and the order of the values are plain arithmetic. *)

(** The quarter of the unit the exact value lies in. *)
Definition loc_code (l : location) : Z :=
  match l with
  | loc_Exact => 0
  | loc_Inexact Lt => 1
  | loc_Inexact Eq => 2
  | loc_Inexact Gt => 3
  end.

(** The code of a mantissa with its round and sticky bits. *)
Definition rec_code (mrs : shr_record) : Z :=
  4 * shr_m mrs + (if shr_r mrs then 2 else 0) + (if shr_s mrs then 1 else 0).

(** The code of the same value [n] binary places to the right: the bits
    shifted out are kept as one sticky bit. *)
Definition sticky_shift (n K : Z) : Z :=
  2 * (K / 2 ^ (n + 1)) + (if K mod 2 ^ (n + 1) =? 0 then 0 else 1).

(** The integer nearest to the value of code [K], ties to even. *)
Definition nearest_even (K : Z) : Z :=
  let m := K / 4 in
  let t := K mod 4 in
  if t <=? 1 then m
  else if t =? 2 then (if Z.even m then m else m + 1)
  else m + 1.

Ltac case_eqb :=
  repeat match goal with
  | |- context [?x =? ?y] => destruct (Z.eqb_spec x y)
  | |- context [?x <=? ?y] => destruct (Z.leb_spec x y)
  | |- context [?x <? ?y] => destruct (Z.ltb_spec x y)
  end.

(** [fexp prec emax] of binary64: the exponent of the floats of a given
    magnitude. *)
Definition fexp64 (x : Z) : Z := Z.max (x - 53) (-1074).

(** [binary_round_aux] on a code. *)
Definition round_model (sx : bool) (K e : Z) : spec_float :=
  let n := Z.max 0 (fexp64 (Zdigits2 (K / 4) + e) - e) in
  let r := nearest_even (sticky_shift n K) in
  let t := e + n in
  let n' := Z.max 0 (fexp64 (Zdigits2 r + t) - t) in
  match sticky_shift n' (4 * r) / 4 with
  | Z0 => S754_zero sx
  | Zpos m => if t + n' <=? 971 then S754_finite sx m (t + n') else S754_infinity sx
  | Zneg _ => S754_nan
  end.

(** Its three steps: the rounded mantissa at the exponent of the value's
    magnitude, the carry into the next binade, the check for overflow. *)
Definition rounded (K e : Z) : Z * Z :=
  let n := Z.max 0 (fexp64 (Zdigits2 (K / 4) + e) - e) in
  (nearest_even (sticky_shift n K), e + n).

Definition normalized (r t : Z) : Z * Z :=
  let n' := Z.max 0 (fexp64 (Zdigits2 r + t) - t) in
  (sticky_shift n' (4 * r) / 4, t + n').

Definition pack (sx : bool) (me : Z * Z) : spec_float :=
  match fst me with
  | Z0 => S754_zero sx
  | Zpos m => if snd me <=? 971 then S754_finite sx m (snd me) else S754_infinity sx
  | Zneg _ => S754_nan
  end.

(** The value of code [K1] at exponent [e1] is not above that of [K2] at
    [e2]: compared at the larger of the two exponents. *)
Definition code_le (K1 e1 K2 e2 : Z) : Prop :=
  sticky_shift (Z.max e1 e2 - e1) K1 <= sticky_shift (Z.max e1 e2 - e2) K2.

(** The code is at least as fine as the float it rounds to. *)
Definition fine (K e : Z) : Prop :=
  0 <= K /\ e <= fexp64 (Zdigits2 (K / 4) + e).

(** Finite and not negative (a zero of either sign included). *)
Definition is_nonneg (x : spec_float) : bool :=
  match x with
  | S754_zero _ | S754_finite false _ _ => true
  | _ => false
  end.

(** The value of a float that [is_nonneg], in units of 2^-1074. *)
Definition SFval (x : spec_float) : Z :=
  match x with
  | S754_finite false m e => Zpos m * 2 ^ (e + 1074)
  | _ => 0
  end.

(** What the rounding of a value that is not negative can return. *)
Definition is_nonneg_ext (x : spec_float) : bool :=
  match x with
  | S754_zero _ | S754_finite false _ _ | S754_infinity false => true
  | _ => false
  end.

(** The code of the quotient [a / b]. *)
Definition qcode (a b : Z) : Z :=
  2 * (2 * a / b) + (if (2 * a) mod b =? 0 then 0 else 1).

(** The exponent and the numerator [SFdiv_core_binary] divides at. *)
Definition div_exp (mx : positive) (ex : Z) (my : positive) (ey : Z) : Z :=
  Z.min (fexp64 (Zdigits2 (Zpos mx) + ex - (Zdigits2 (Zpos my) + ey))) (ex - ey).

Definition div_num (mx : positive) (ex : Z) (my : positive) (ey : Z) : Z :=
  Zpos mx * 2 ^ (ex - ey - div_exp mx ex my ey).

(** A double that is finite and not negative, as an elapsed time is, and
    its value in units of 2^-1074. *)
Definition nonneg_finite (x : float) : Prop := is_nonneg (Prim2SF x) = true.
Definition Fval (x : float) : Z := SFval (Prim2SF x).


(** * Properties *)

(** ** Rounding is monotone

    The index of a percentile is a product, a quotient and a truncation;
    each is monotone, so the index is, and it is bounded by the index of
    the percentile 100. *)

(** *** Shifting a code is shifting the record *)

Lemma rec_code_shr_1 mrs :
  0 <= shr_m mrs ->
  rec_code (shr_1 mrs) = sticky_shift 1 (rec_code mrs) /\ 0 <= shr_m (shr_1 mrs).
Proof.
  destruct mrs as [m r s]. unfold rec_code, sticky_shift. cbn [shr_m shr_r shr_s].
  change (2 ^ (1 + 1)) with 4. intros Hm.
  destruct m as [|p|p]; [| |lia].
  - destruct r, s; cbn; split; reflexivity || lia.
  - destruct p as [p|p|]; cbn [shr_1 shr_m shr_r shr_s orb].
    + split; [|lia]. rewrite (Pos2Z.inj_xI p).
      destruct r, s; cbn [orb]; case_eqb; Z.div_mod_to_equations; lia.
    + split; [|lia]. rewrite (Pos2Z.inj_xO p).
      destruct r, s; cbn [orb]; case_eqb; Z.div_mod_to_equations; lia.
    + destruct r, s; cbn; split; reflexivity || lia.
Qed.

Lemma sticky_shift_0 K : sticky_shift 0 K = K.
Proof.
  unfold sticky_shift. change (2 ^ (0 + 1)) with 2. case_eqb; Z.div_mod_to_equations; lia.
Qed.

Lemma sticky_shift_succ n K :
  0 <= n -> sticky_shift 1 (sticky_shift n K) = sticky_shift (n + 1) K.
Proof.
  intros Hn. unfold sticky_shift. change (2 ^ (1 + 1)) with 4.
  replace (n + 1 + 1) with (1 + (n + 1)) by lia.
  rewrite (Z.pow_add_r 2 1 (n + 1)) by lia. change (2 ^ 1) with 2.
  set (Q := 2 ^ (n + 1)).
  assert (HQ : 0 < Q) by (apply Z.pow_pos_nonneg; lia).
  rewrite (Z.mul_comm 2 Q).
  rewrite <- (Z.div_div K Q 2) by lia.
  rewrite (Z.rem_mul_r K Q 2) by lia.
  pose proof (Z.mod_pos_bound K Q HQ) as Hr.
  set (A := K / Q) in *. set (r := K mod Q) in *.
  assert (HA : A mod 2 = 0 \/ A mod 2 = 1) by (Z.div_mod_to_equations; lia).
  destruct HA as [HA|HA]; rewrite HA; rewrite ?Z.mul_0_r, ?Z.mul_1_r, ?Z.add_0_r;
    case_eqb; Z.div_mod_to_equations; lia.
Qed.

Lemma sticky_shift_mono n K1 K2 :
  0 <= n -> K1 <= K2 -> sticky_shift n K1 <= sticky_shift n K2.
Proof.
  intros Hn HK. unfold sticky_shift.
  set (Q := 2 ^ (n + 1)).
  assert (HQ : 0 < Q) by (apply Z.pow_pos_nonneg; lia).
  pose proof (Z.div_le_mono K1 K2 Q HQ HK) as Hq.
  pose proof (Z.div_mod K1 Q ltac:(lia)) as E1.
  pose proof (Z.div_mod K2 Q ltac:(lia)) as E2.
  pose proof (Z.mod_pos_bound K1 Q HQ) as B1.
  pose proof (Z.mod_pos_bound K2 Q HQ) as B2.
  destruct (Z.eq_dec (K1 / Q) (K2 / Q)) as [E|E].
  - rewrite E in *. case_eqb; nia.
  - case_eqb; lia.
Qed.

Lemma iter_pos_nat {A} (f : A -> A) p x :
  iter_pos f p x = Nat.iter (Pos.to_nat p) f x.
Proof.
  revert x. induction p as [p IH|p IH|]; intros x; cbn [iter_pos].
  - rewrite Pos2Nat.inj_xI, !IH.
    replace (S (2 * Pos.to_nat p)) with (Pos.to_nat p + (Pos.to_nat p + 1))%nat by lia.
    rewrite !Nat.iter_add. reflexivity.
  - rewrite Pos2Nat.inj_xO. rewrite !IH.
    replace (2 * Pos.to_nat p)%nat with (Pos.to_nat p + Pos.to_nat p)%nat by lia.
    rewrite Nat.iter_add. reflexivity.
  - reflexivity.
Qed.

Lemma rec_code_iter_shr_1 n mrs :
  0 <= shr_m mrs ->
  rec_code (Nat.iter n shr_1 mrs) = sticky_shift (Z.of_nat n) (rec_code mrs)
  /\ 0 <= shr_m (Nat.iter n shr_1 mrs).
Proof.
  intros Hm. induction n as [|n [IH1 IH2]].
  - change (Nat.iter 0 shr_1 mrs) with mrs. rewrite sticky_shift_0. auto.
  - change (Nat.iter (S n) shr_1 mrs) with (shr_1 (Nat.iter n shr_1 mrs)).
    destruct (rec_code_shr_1 _ IH2) as [E1 E2].
    split; [|exact E2]. rewrite E1, IH1, sticky_shift_succ by lia.
    f_equal. lia.
Qed.

Lemma rec_code_shr mrs e n :
  0 <= shr_m mrs ->
  rec_code (fst (shr mrs e n)) = sticky_shift (Z.max 0 n) (rec_code mrs)
  /\ 0 <= shr_m (fst (shr mrs e n))
  /\ snd (shr mrs e n) = e + Z.max 0 n.
Proof.
  intros Hm. destruct n as [|p|p]; cbn [shr fst snd].
  - rewrite sticky_shift_0. repeat split; auto; lia.
  - rewrite iter_pos_nat. destruct (rec_code_iter_shr_1 (Pos.to_nat p) mrs Hm) as [E1 E2].
    rewrite E1. rewrite positive_nat_Z. repeat split; auto; f_equal; lia.
  - rewrite sticky_shift_0. repeat split; auto; lia.
Qed.

(** *** [binary_round_aux] on codes *)

Lemma fexp_fexp64 x : fexp prec emax x = fexp64 x.
Proof. reflexivity. Qed.

Lemma rec_code_of_loc m l : rec_code (shr_record_of_loc m l) = 4 * m + loc_code l.
Proof. destruct l as [|[]]; unfold rec_code; cbn; lia. Qed.

Lemma shr_m_code mrs : shr_m mrs = rec_code mrs / 4.
Proof.
  destruct mrs as [m r s]. unfold rec_code. cbn [shr_m shr_r shr_s].
  destruct r, s; Z.div_mod_to_equations; lia.
Qed.

Lemma rne_code mrs :
  round_nearest_even (shr_m mrs) (loc_of_shr_record mrs) = nearest_even (rec_code mrs).
Proof.
  destruct mrs as [m r s]. unfold rec_code, nearest_even. cbn [shr_m shr_r shr_s].
  assert (E : forall c, 0 <= c < 4 -> (4 * m + c) / 4 = m /\ (4 * m + c) mod 4 = c)
    by (intros; Z.div_mod_to_equations; lia).
  destruct r, s; cbn [loc_of_shr_record round_nearest_even].
  - destruct (E 3 ltac:(lia)) as [E1 E2].
    replace (4 * m + 2 + 1) with (4 * m + 3) by lia. rewrite E1, E2. reflexivity.
  - destruct (E 2 ltac:(lia)) as [E1 E2].
    replace (4 * m + 2 + 0) with (4 * m + 2) by lia. rewrite E1, E2. reflexivity.
  - destruct (E 1 ltac:(lia)) as [E1 E2].
    replace (4 * m + 0 + 1) with (4 * m + 1) by lia. rewrite E1, E2. reflexivity.
  - destruct (E 0 ltac:(lia)) as [E1 E2].
    replace (4 * m + 0 + 0) with (4 * m + 0) by lia. rewrite E1, E2. reflexivity.
Qed.

Lemma shr_fexp_code m e l :
  0 <= m ->
  let n := Z.max 0 (fexp64 (Zdigits2 m + e) - e) in
  rec_code (fst (shr_fexp prec emax m e l)) = sticky_shift n (4 * m + loc_code l)
  /\ snd (shr_fexp prec emax m e l) = e + n.
Proof.
  intros Hm n. unfold shr_fexp. rewrite fexp_fexp64.
  destruct (rec_code_shr (shr_record_of_loc m l) e (fexp64 (Zdigits2 m + e) - e)) as (E1 & _ & E3).
  - destruct l as [|[]]; exact Hm.
  - rewrite E1, E3, rec_code_of_loc. auto.
Qed.

Lemma nearest_even_bounds K : K / 4 <= nearest_even K <= K / 4 + 1.
Proof. unfold nearest_even. destruct (Z.even (K / 4)); case_eqb; lia. Qed.

Lemma nearest_even_nonneg K : 0 <= K -> 0 <= nearest_even K.
Proof. intros H. pose proof (nearest_even_bounds K). Z.div_mod_to_equations; lia. Qed.

Lemma binary_round_aux_model sx m e l :
  0 <= m -> binary_round_aux prec emax sx m e l = round_model sx (4 * m + loc_code l) e.
Proof.
  intros Hm. unfold binary_round_aux, round_model.
  assert (Em : (4 * m + loc_code l) / 4 = m)
    by (destruct l as [|[]]; cbn [loc_code]; Z.div_mod_to_equations; lia).
  rewrite Em.
  destruct (shr_fexp_code m e l Hm) as [E1 E2].
  destruct (shr_fexp prec emax m e l) as [mrs' e'] eqn:S1. cbn [fst snd] in E1, E2.
  rewrite rne_code, E1. subst e'.
  set (n := Z.max 0 (fexp64 (Zdigits2 m + e) - e)).
  set (r := nearest_even (sticky_shift n (4 * m + loc_code l))).
  assert (Hr : 0 <= r).
  { apply nearest_even_nonneg. unfold sticky_shift.
    assert (0 <= 4 * m + loc_code l) by (destruct l as [|[]]; cbn [loc_code]; lia).
    assert (0 < 2 ^ (n + 1)) by (apply Z.pow_pos_nonneg; lia).
    case_eqb; Z.div_mod_to_equations; nia. }
  destruct (shr_fexp_code r (e + n) loc_Exact Hr) as [F1 F2].
  destruct (shr_fexp prec emax r (e + n) loc_Exact) as [mrs'' e''] eqn:S2. cbn [fst snd] in F1, F2.
  rewrite shr_m_code, F1. cbn [loc_code]. rewrite Z.add_0_r. subst e''.
  reflexivity.
Qed.

(** *** Digits, powers of two, and more on shifts *)

Lemma digits2_log2 p : Zpos (digits2_pos p) = Z.log2 (Zpos p) + 1.
Proof.
  assert (E : digits2_pos p = Pos.size p) by (induction p; cbn; congruence).
  rewrite E. destruct p; cbn; lia.
Qed.

Lemma digits_bounds m :
  0 < m -> 0 < Zdigits2 m /\ 2 ^ (Zdigits2 m - 1) <= m < 2 ^ Zdigits2 m.
Proof.
  intros Hm. destruct m as [|p|p]; try lia. cbn [Zdigits2]. rewrite digits2_log2.
  pose proof (Z.log2_nonneg (Zpos p)). pose proof (Z.log2_spec (Zpos p) Hm).
  replace (Z.log2 (Z.pos p) + 1 - 1) with (Z.log2 (Z.pos p)) by lia.
  replace (Z.log2 (Z.pos p) + 1) with (Z.succ (Z.log2 (Z.pos p))) by lia. lia.
Qed.

Lemma digits_unique m k :
  2 ^ (k - 1) <= m < 2 ^ k -> 0 < k -> Zdigits2 m = k.
Proof.
  intros H Hk.
  assert (Hm : 0 < m) by (pose proof (Z.pow_pos_nonneg 2 (k - 1)); lia).
  destruct m as [|p|p]; try lia. cbn [Zdigits2]. rewrite digits2_log2.
  rewrite (Z.log2_unique (Zpos p) (k - 1)); try lia.
  replace (Z.succ (k - 1)) with k by lia. lia.
Qed.

Lemma digits_nonneg m : 0 <= Zdigits2 m.
Proof. destruct m; cbn; lia. Qed.

Lemma digits_mono a b : 0 <= a <= b -> Zdigits2 a <= Zdigits2 b.
Proof.
  intros H. destruct a as [|p|p]; try lia.
  - apply digits_nonneg.
  - destruct b as [|q|q]; try lia. cbn [Zdigits2]. rewrite !digits2_log2.
    pose proof (Z.log2_le_mono (Zpos p) (Zpos q)). lia.
Qed.

Lemma pow2_pos n : 0 <= n -> 0 < 2 ^ n.
Proof. intros. apply Z.pow_pos_nonneg; lia. Qed.

Lemma pow2_le a b : 0 <= a <= b -> 2 ^ a <= 2 ^ b.
Proof. intros. apply Z.pow_le_mono_r; lia. Qed.

Lemma pow2_split a b : 0 <= a <= b -> 2 ^ b = 2 ^ (b - a) * 2 ^ a.
Proof. intros. rewrite <- Z.pow_add_r by lia. f_equal. lia. Qed.

Lemma digits_div_pow m n :
  0 <= m -> 0 <= n -> Zdigits2 (m / 2 ^ n) = Z.max 0 (Zdigits2 m - n).
Proof.
  intros Hm Hn. pose proof (pow2_pos n Hn) as Hp.
  destruct (Z.eq_dec m 0) as [->|Hm0].
  - rewrite Z.div_0_l by lia. cbn. lia.
  - destruct (digits_bounds m ltac:(lia)) as (Hd & Hlo & Hhi).
    destruct (Z_le_gt_dec (Zdigits2 m) n) as [Hle|Hgt].
    + rewrite Z.div_small. { cbn. lia. }
      pose proof (pow2_le (Zdigits2 m) n). lia.
    + rewrite Z.max_r by lia. apply digits_unique; [|lia].
      rewrite (pow2_split n (Zdigits2 m - 1)) in Hlo by lia.
      rewrite (pow2_split n (Zdigits2 m)) in Hhi by lia.
      replace (Zdigits2 m - n - 1) with (Zdigits2 m - 1 - n) by lia.
      split.
      * apply Z.div_le_lower_bound; lia.
      * apply Z.div_lt_upper_bound; lia.
Qed.

Lemma sticky_shift_div4 n K : 0 <= n -> sticky_shift n K / 4 = K / 4 / 2 ^ n.
Proof.
  intros Hn. unfold sticky_shift. pose proof (pow2_pos n Hn) as Hp.
  rewrite (Z.div_div K 4 (2 ^ n)) by lia.
  replace (4 * 2 ^ n) with (2 ^ (n + 1) * 2)
    by (rewrite Z.pow_add_r by lia; change (2 ^ 1) with 2; lia).
  pose proof (pow2_pos (n + 1) ltac:(lia)) as Hq.
  rewrite <- (Z.div_div K (2 ^ (n + 1)) 2) by lia.
  generalize (K / 2 ^ (n + 1)); intros A.
  generalize (K mod 2 ^ (n + 1)); intros B. clear.
  case_eqb; Z.div_mod_to_equations; lia.
Qed.

Lemma sticky_shift_add a b K :
  0 <= a -> 0 <= b -> sticky_shift a (sticky_shift b K) = sticky_shift (a + b) K.
Proof.
  intros Ha Hb. revert a Ha. apply natlike_ind.
  - rewrite sticky_shift_0. reflexivity.
  - intros a Ha IH. unfold Z.succ.
    rewrite <- (sticky_shift_succ a) by lia. rewrite IH.
    rewrite sticky_shift_succ by lia. f_equal. lia.
Qed.

Lemma nearest_even_mono K1 K2 : K1 <= K2 -> nearest_even K1 <= nearest_even K2.
Proof.
  intros H. unfold nearest_even.
  destruct (Z.eq_dec (K1 / 4) (K2 / 4)) as [E|E].
  - rewrite E. destruct (Z.even (K2 / 4)); case_eqb; Z.div_mod_to_equations; lia.
  - assert (K1 / 4 + 1 <= K2 / 4) by (Z.div_mod_to_equations; lia).
    destruct (Z.even (K1 / 4)), (Z.even (K2 / 4)); case_eqb; lia.
Qed.

(** Exact codes: shifting a multiple of 2^n. *)
Lemma sticky_shift_exact n a : 0 <= n -> sticky_shift n (4 * (a * 2 ^ n)) = 4 * a.
Proof.
  intros Hn. unfold sticky_shift.
  replace (4 * (a * 2 ^ n)) with ((2 * a) * 2 ^ (n + 1))
    by (rewrite Z.pow_add_r by lia; change (2 ^ 1) with 2; ring).
  pose proof (pow2_pos (n + 1) ltac:(lia)).
  rewrite Z.div_mul, Z.mod_mul by lia. rewrite Z.eqb_refl. lia.
Qed.

(** *** The rounded mantissa and its exponent *)

Lemma round_model_pack sx K e :
  round_model sx K e = pack sx (normalized (fst (rounded K e)) (snd (rounded K e))).
Proof. reflexivity. Qed.

Lemma rounded_facts K e :
  fine K e ->
  snd (rounded K e) = fexp64 (Zdigits2 (K / 4) + e)
  /\ -1074 <= snd (rounded K e)
  /\ 0 <= fst (rounded K e) <= 2 ^ 53
  /\ (-1074 < snd (rounded K e) -> 2 ^ 52 <= fst (rounded K e)).
Proof.
  intros [HK He]. unfold rounded. cbn [fst snd].
  set (d := Zdigits2 (K / 4)) in *.
  set (n := Z.max 0 (fexp64 (d + e) - e)).
  assert (Hn : n = fexp64 (d + e) - e) by lia.
  assert (Hn0 : 0 <= n) by lia.
  assert (Hm : 0 <= K / 4) by (apply Z.div_pos; lia).
  pose proof (nearest_even_bounds (sticky_shift n K)) as Hb.
  rewrite sticky_shift_div4 in Hb by lia.
  pose proof (digits_div_pow (K / 4) n Hm Hn0) as Hd. fold d in Hd.
  assert (Hq : 0 <= K / 4 / 2 ^ n) by (apply Z.div_pos; [lia|apply pow2_pos; lia]).
  split; [lia|]. split; [unfold fexp64 in *; lia|]. split; [split|].
  - lia.
  - apply Z.le_trans with (K / 4 / 2 ^ n + 1); [lia|].
    destruct (Z.eq_dec (K / 4 / 2 ^ n) 0) as [E|E]; [rewrite E; cbn; lia|].
    destruct (digits_bounds (K / 4 / 2 ^ n) ltac:(lia)) as (_ & _ & Hhi).
    rewrite Hd in Hhi.
    assert (Z.max 0 (d - n) <= 53) by (unfold fexp64 in *; lia).
    pose proof (pow2_le (Z.max 0 (d - n)) 53 ltac:(lia)). lia.
  - intros Ht.
    assert (Hdn : d - n = 53) by (unfold fexp64 in *; lia).
    assert (E : K / 4 / 2 ^ n <> 0).
    { intros E. rewrite E in Hd. cbn in Hd. lia. }
    destruct (digits_bounds (K / 4 / 2 ^ n) ltac:(lia)) as (_ & Hlo & _).
    rewrite Hd in Hlo. replace (Z.max 0 (d - n) - 1) with 52 in Hlo by lia. lia.
Qed.

Lemma normalized_facts r t :
  0 <= r <= 2 ^ 53 -> -1074 <= t -> (-1074 < t -> 2 ^ 52 <= r) ->
  fst (normalized r t) * 2 ^ (snd (normalized r t) + 1074) = r * 2 ^ (t + 1074)
  /\ 0 <= fst (normalized r t) < 2 ^ 53
  /\ -1074 <= snd (normalized r t)
  /\ (-1074 < snd (normalized r t) -> 2 ^ 52 <= fst (normalized r t)).
Proof.
  intros Hr Ht Hn. unfold normalized. cbn [fst snd].
  destruct (Z.eq_dec r (2 ^ 53)) as [->|Hne].
  - change (Zdigits2 (2 ^ 53)) with 54.
    replace (Z.max 0 (fexp64 (54 + t) - t)) with 1 by (unfold fexp64; lia).
    change (sticky_shift 1 (4 * 2 ^ 53) / 4) with (2 ^ 52).
    replace (t + 1 + 1074) with (1 + (t + 1074)) by lia.
    rewrite Z.pow_add_r by lia.
    change (2 ^ 53) with (2 ^ 52 * 2 ^ 1). repeat split; try lia.
  - assert (Hd : Zdigits2 r <= 53).
    { destruct (Z.eq_dec r 0) as [->|Hr0]; [cbn; lia|].
      destruct (digits_bounds r ltac:(lia)) as (Hd0 & Hlo & _).
      destruct (Z_le_gt_dec (Zdigits2 r) 53) as [|Hgt]; [assumption|].
      pose proof (pow2_le 53 (Zdigits2 r - 1) ltac:(lia)). lia. }
    replace (Z.max 0 (fexp64 (Zdigits2 r + t) - t)) with 0 by (unfold fexp64; lia).
    rewrite sticky_shift_0, Z.add_0_r.
    replace (4 * r / 4) with r by (Z.div_mod_to_equations; lia).
    repeat split; try lia.
Qed.

Lemma target_mono K1 e1 K2 e2 :
  fine K1 e1 -> fine K2 e2 -> code_le K1 e1 K2 e2 ->
  snd (rounded K1 e1) <= snd (rounded K2 e2).
Proof.
  intros F1 F2 H.
  destruct (rounded_facts K1 e1 F1) as (T1 & _). destruct (rounded_facts K2 e2 F2) as (T2 & _).
  rewrite T1, T2. destruct F1 as [HK1 He1], F2 as [HK2 He2]. unfold code_le in H.
  set (a := Z.max e1 e2 - e1) in *. set (b := Z.max e1 e2 - e2) in *.
  assert (Ha : 0 <= a) by lia. assert (Hb : 0 <= b) by lia.
  apply (Z.div_le_mono _ _ 4 ltac:(lia)) in H.
  rewrite !sticky_shift_div4 in H by lia.
  assert (Hm1 : 0 <= K1 / 4) by (apply Z.div_pos; lia).
  assert (Hm2 : 0 <= K2 / 4) by (apply Z.div_pos; lia).
  assert (Hq1 : 0 <= K1 / 4 / 2 ^ a) by (apply Z.div_pos; [lia|apply pow2_pos; lia]).
  pose proof (digits_mono _ _ (conj Hq1 H)) as Hd.
  rewrite !digits_div_pow in Hd by lia.
  destruct (Z.eq_dec (K1 / 4) 0) as [E|E].
  - rewrite E in *. cbn [Zdigits2] in *. unfold fexp64 in *. lia.
  - destruct (digits_bounds (K1 / 4) ltac:(lia)) as (Hd1 & _).
    pose proof (digits_nonneg (K2 / 4)).
    unfold fexp64 in *. lia.
Qed.

Lemma rounded_mono K1 e1 K2 e2 :
  fine K1 e1 -> fine K2 e2 -> code_le K1 e1 K2 e2 ->
  fst (rounded K1 e1) * 2 ^ (snd (rounded K1 e1) + 1074)
  <= fst (rounded K2 e2) * 2 ^ (snd (rounded K2 e2) + 1074).
Proof.
  intros F1 F2 H.
  pose proof (target_mono K1 e1 K2 e2 F1 F2 H) as Ht.
  destruct (rounded_facts K1 e1 F1) as (T1 & L1 & R1 & N1).
  destruct (rounded_facts K2 e2 F2) as (T2 & L2 & R2 & N2).
  destruct (Z.eq_dec (snd (rounded K1 e1)) (snd (rounded K2 e2))) as [E|E].
  - rewrite <- E. apply Z.mul_le_mono_nonneg_r; [apply Z.lt_le_incl, pow2_pos; lia|].
    unfold rounded in *. cbn [fst snd] in *.
    destruct F1 as [HK1 He1], F2 as [HK2 He2].
    set (n1 := Z.max 0 (fexp64 (Zdigits2 (K1 / 4) + e1) - e1)) in *.
    set (n2 := Z.max 0 (fexp64 (Zdigits2 (K2 / 4) + e2) - e2)) in *.
    apply nearest_even_mono. unfold code_le in H.
    replace n1 with ((n1 - (Z.max e1 e2 - e1)) + (Z.max e1 e2 - e1)) by lia.
    replace n2 with ((n2 - (Z.max e1 e2 - e2)) + (Z.max e1 e2 - e2)) by lia.
    rewrite <- !sticky_shift_add by lia.
    replace (n2 - (Z.max e1 e2 - e2)) with (n1 - (Z.max e1 e2 - e1)) by lia.
    apply sticky_shift_mono; [lia|exact H].
  - assert (Hlt : snd (rounded K1 e1) + 1 <= snd (rounded K2 e2)) by lia.
    specialize (N2 ltac:(lia)).
    set (t1 := snd (rounded K1 e1)) in *. set (t2 := snd (rounded K2 e2)) in *.
    set (r1 := fst (rounded K1 e1)) in *. set (r2 := fst (rounded K2 e2)) in *.
    rewrite (pow2_split (t1 + 1074) (t2 + 1074)) by lia.
    pose proof (pow2_pos (t1 + 1074) ltac:(lia)) as Hp.
    rewrite Z.mul_assoc. apply Z.mul_le_mono_nonneg_r; [lia|].
    pose proof (pow2_le 1 (t2 + 1074 - (t1 + 1074)) ltac:(lia)) as Hp2.
    change (2 ^ 1) with 2 in Hp2.
    change (2 ^ 53) with (2 ^ 52 * 2) in R1.
    assert (0 < 2 ^ 52) by (apply pow2_pos; lia). nia.
Qed.

Lemma canonical_order m1 e1 m2 e2 :
  0 < m1 < 2 ^ 53 -> 0 < m2 < 2 ^ 53 -> -1074 <= e1 -> -1074 <= e2 ->
  (-1074 < e1 -> 2 ^ 52 <= m1) -> (-1074 < e2 -> 2 ^ 52 <= m2) ->
  (m1 * 2 ^ (e1 + 1074) <= m2 * 2 ^ (e2 + 1074)
   <-> e1 < e2 \/ (e1 = e2 /\ m1 <= m2)).
Proof.
  intros M1 M2 E1 E2 N1 N2.
  assert (P52 : 2 ^ 53 = 2 ^ 52 * 2) by reflexivity.
  assert (Q52 : 0 < 2 ^ 52) by (apply pow2_pos; lia).
  assert (Key : forall ma ea mb eb, 0 < ma < 2 ^ 53 -> 0 < mb -> -1074 <= ea -> ea < eb ->
            2 ^ 52 <= mb -> ma * 2 ^ (ea + 1074) < mb * 2 ^ (eb + 1074)).
  { intros ma ea mb eb Ma Mb Ea Eab Nb.
    rewrite (pow2_split (ea + 1074) (eb + 1074)) by lia.
    pose proof (pow2_pos (ea + 1074) ltac:(lia)) as Hp.
    rewrite Z.mul_assoc. apply Z.mul_lt_mono_pos_r; [lia|].
    pose proof (pow2_le 1 (eb + 1074 - (ea + 1074)) ltac:(lia)) as Hp2.
    change (2 ^ 1) with 2 in Hp2. nia. }
  pose proof (pow2_pos (e1 + 1074) ltac:(lia)) as Hp1.
  split.
  - intros H. destruct (Z.lt_trichotomy e1 e2) as [L|[L|L]].
    + left; exact L.
    + right. split; [exact L|]. subst e2. nia.
    + exfalso. specialize (Key m2 e2 m1 e1 M2 ltac:(lia) E2 L (N1 ltac:(lia))). lia.
  - intros [L|[L Hm]].
    + apply Z.lt_le_incl, Key; try lia.
    + subst e2. nia.
Qed.

(** *** The order of the floats is the order of their values *)

Lemma valid_facts s m e :
  valid_binary (S754_finite s m e) = true ->
  0 < Zpos m < 2 ^ 53 /\ -1074 <= e <= 971 /\ (-1074 < e -> 2 ^ 52 <= Zpos m).
Proof.
  cbn [SpecFloat.valid_binary]. unfold bounded, canonical_mantissa.
  rewrite fexp_fexp64. intros H. apply andb_prop in H. destruct H as [H1 H2].
  apply Z.eqb_eq in H1. apply Z.leb_le in H2. change (emax - prec) with 971 in H2.
  destruct (digits_bounds (Zpos m) ltac:(lia)) as (Hd & Hlo & Hhi).
  cbn [Zdigits2] in *. set (d := Z.pos (digits2_pos m)) in *.
  unfold fexp64 in H1.
  split; [split; [lia|]|split; [lia|]].
  - pose proof (pow2_le d 53 ltac:(lia)). lia.
  - intros He. replace d with 53 in Hlo by lia. exact Hlo.
Qed.

Lemma pack_le me1 me2 :
  0 <= fst me1 < 2 ^ 53 -> 0 <= fst me2 < 2 ^ 53 ->
  -1074 <= snd me1 -> -1074 <= snd me2 ->
  (-1074 < snd me1 -> 2 ^ 52 <= fst me1) -> (-1074 < snd me2 -> 2 ^ 52 <= fst me2) ->
  fst me1 * 2 ^ (snd me1 + 1074) <= fst me2 * 2 ^ (snd me2 + 1074) ->
  SFleb (pack false me1) (pack false me2) = true.
Proof.
  destruct me1 as [m1 e1], me2 as [m2 e2]. cbn [fst snd].
  intros M1 M2 E1 E2 N1 N2 H. unfold pack. cbn [fst snd].
  pose proof (pow2_pos (e1 + 1074) ltac:(lia)) as P1.
  pose proof (pow2_pos (e2 + 1074) ltac:(lia)) as P2.
  destruct m1 as [|p1|p1]; [|destruct m2 as [|p2|p2]|]; try lia.
  - destruct m2 as [|p2|p2]; try lia; [reflexivity|].
    destruct (e2 <=? 971); reflexivity.
  - assert (M1' : 0 < Z.pos p1 < 2 ^ 53) by lia.
    assert (M2' : 0 < Z.pos p2 < 2 ^ 53) by lia.
    pose proof (proj1 (canonical_order _ _ _ _ M1' M2' E1 E2 N1 N2) H) as Hc.
    destruct (Z.leb_spec e1 971), (Z.leb_spec e2 971); try reflexivity.
    + unfold SFleb. cbn [SFcompare]. destruct Hc as [Hc|[Hc Hm]].
      * rewrite (proj2 (Z.compare_lt_iff e1 e2) Hc). reflexivity.
      * subst e2. rewrite Z.compare_refl.
        change (Pos.compare_cont Eq p1 p2) with (Pos.compare p1 p2).
        destruct (Pos.compare_spec p1 p2); try reflexivity. lia.
    + exfalso. lia.
Qed.

(** Rounding to nearest, ties to even, is monotone. *)
Theorem round_model_le K1 e1 K2 e2 :
  fine K1 e1 -> fine K2 e2 -> code_le K1 e1 K2 e2 ->
  SFleb (round_model false K1 e1) (round_model false K2 e2) = true.
Proof.
  intros F1 F2 H. rewrite !round_model_pack.
  pose proof (rounded_mono K1 e1 K2 e2 F1 F2 H) as Hv.
  destruct (rounded_facts K1 e1 F1) as (_ & L1 & R1 & N1).
  destruct (rounded_facts K2 e2 F2) as (_ & L2 & R2 & N2).
  destruct (normalized_facts _ _ R1 L1 N1) as (V1 & A1 & B1 & C1).
  destruct (normalized_facts _ _ R2 L2 N2) as (V2 & A2 & B2 & C2).
  apply pack_le; try assumption. rewrite V1, V2. exact Hv.
Qed.

Lemma round_model_nonneg_ext K e : fine K e -> is_nonneg_ext (round_model false K e) = true.
Proof.
  intros F. rewrite round_model_pack.
  destruct (rounded_facts K e F) as (_ & L1 & R1 & N1).
  destruct (normalized_facts _ _ R1 L1 N1) as (_ & A1 & _).
  unfold pack. destruct (fst (normalized _ _)); try lia; try reflexivity.
  destruct (_ <=? _); reflexivity.
Qed.

Lemma le_finite_nonneg x y :
  is_nonneg_ext x = true -> is_nonneg y = true -> SFleb x y = true -> is_nonneg x = true.
Proof.
  destruct x as [sx|[|]| |[|] mx ex]; try discriminate; try reflexivity.
  destruct y as [sy|[|]| |[|] my ey]; discriminate.
Qed.

Lemma SFleb_val x y :
  valid_binary x = true -> valid_binary y = true ->
  is_nonneg x = true -> is_nonneg y = true ->
  (SFleb x y = true <-> SFval x <= SFval y).
Proof.
  intros Vx Vy Nx Ny.
  destruct x as [sx|[|]| |[|] mx ex]; try discriminate;
  destruct y as [sy|[|]| |[|] my ey]; try discriminate; cbn [SFval].
  - split; [lia|reflexivity].
  - split; [|reflexivity]. intros _. destruct (valid_facts _ _ _ Vy) as (M & E & _).
    pose proof (pow2_pos (ey + 1074) ltac:(lia)).
    apply Z.lt_le_incl, Z.mul_pos_pos; lia.
  - destruct (valid_facts _ _ _ Vx) as (M & E & _).
    pose proof (pow2_pos (ex + 1074) ltac:(lia)). split; [discriminate|].
    assert (0 < Z.pos mx * 2 ^ (ex + 1074)) by (apply Z.mul_pos_pos; lia). lia.
  - destruct (valid_facts _ _ _ Vx) as (M1 & E1 & N1).
    destruct (valid_facts _ _ _ Vy) as (M2 & E2 & N2).
    rewrite (canonical_order _ ex _ ey M1 M2 ltac:(lia) ltac:(lia) N1 N2).
    unfold SFleb. cbn [SFcompare].
    destruct (Z.compare_spec ex ey) as [E|E|E].
    + subst ey. change (Pos.compare_cont Eq mx my) with (Pos.compare mx my).
      destruct (Pos.compare_spec mx my); split; intros; try discriminate; try reflexivity; lia.
    + split; [lia|reflexivity].
    + split; [discriminate|lia].
Qed.

(** *** Products *)

Lemma scale_le A B x y k :
  0 <= x -> 0 <= y -> 0 <= x + k -> 0 <= y + k ->
  A * 2 ^ x <= B * 2 ^ y -> A * 2 ^ (x + k) <= B * 2 ^ (y + k).
Proof.
  intros Hx Hy Hxk Hyk H. destruct (Z_le_gt_dec 0 k) as [Hk|Hk].
  - rewrite (Z.pow_add_r 2 x k), (Z.pow_add_r 2 y k) by lia.
    rewrite !Z.mul_assoc.
    apply Z.mul_le_mono_nonneg_r; [apply Z.lt_le_incl, pow2_pos; lia|exact H].
  - replace x with ((x + k) + (- k)) in H by lia.
    replace y with ((y + k) + (- k)) in H by lia.
    rewrite (Z.pow_add_r 2 (x + k) (- k)), (Z.pow_add_r 2 (y + k) (- k)) in H by lia.
    rewrite !Z.mul_assoc in H.
    apply Z.mul_le_mono_pos_r in H; [exact H|apply pow2_pos; lia].
Qed.

Lemma code_le_exact M1 e1 M2 e2 w :
  0 <= M1 -> 0 <= M2 -> 0 <= e1 + w -> 0 <= e2 + w ->
  M1 * 2 ^ (e1 + w) <= M2 * 2 ^ (e2 + w) ->
  code_le (4 * M1) e1 (4 * M2) e2.
Proof.
  intros H1 H2 W1 W2 H. unfold code_le.
  destruct (Z_le_gt_dec e1 e2) as [L|L].
  - rewrite (Z.max_r e1 e2) by lia. rewrite Z.sub_diag, sticky_shift_0.
    apply (scale_le _ _ _ _ (- (e1 + w))) in H; try lia.
    replace (e1 + w + - (e1 + w)) with 0 in H by lia.
    replace (e2 + w + - (e1 + w)) with (e2 - e1) in H by lia.
    rewrite Z.pow_0_r, Z.mul_1_r in H.
    rewrite <- (sticky_shift_exact (e2 - e1) M2) by lia.
    apply sticky_shift_mono; lia.
  - rewrite (Z.max_l e1 e2) by lia. rewrite Z.sub_diag, sticky_shift_0.
    apply (scale_le _ _ _ _ (- (e2 + w))) in H; try lia.
    replace (e2 + w + - (e2 + w)) with 0 in H by lia.
    replace (e1 + w + - (e2 + w)) with (e1 - e2) in H by lia.
    rewrite Z.pow_0_r, Z.mul_1_r in H.
    rewrite <- (sticky_shift_exact (e1 - e2) M1) by lia.
    apply sticky_shift_mono; lia.
Qed.

Lemma digits_ge m k : 0 <= k -> 2 ^ k <= m -> k + 1 <= Zdigits2 m.
Proof.
  intros Hk H. pose proof (pow2_pos k Hk).
  rewrite <- (digits_unique (2 ^ k) (k + 1)); [apply digits_mono; lia| |lia].
  replace (k + 1 - 1) with k by lia. rewrite Z.pow_add_r by lia.
  change (2 ^ 1) with 2. lia.
Qed.

Lemma SFmul_round mx ex my ey :
  SFmul prec emax (S754_finite false mx ex) (S754_finite false my ey)
  = round_model false (4 * (Zpos mx * Zpos my)) (ex + ey).
Proof.
  cbn [SFmul xorb]. rewrite binary_round_aux_model by lia.
  cbn [loc_code]. rewrite Z.add_0_r. reflexivity.
Qed.

Lemma mul_fine mx ex my ey :
  valid_binary (S754_finite false mx ex) = true ->
  valid_binary (S754_finite false my ey) = true ->
  fine (4 * (Zpos mx * Zpos my)) (ex + ey).
Proof.
  intros Vx Vy. destruct (valid_facts _ _ _ Vx) as (M1 & E1 & N1).
  destruct (valid_facts _ _ _ Vy) as (M2 & E2 & N2).
  split; [lia|].
  replace (4 * (Z.pos mx * Z.pos my) / 4) with (Z.pos mx * Z.pos my)
    by (generalize (Z.pos mx * Z.pos my); intros; Z.div_mod_to_equations; lia).
  unfold fexp64.
  assert (Q52 : 0 < 2 ^ 52) by (apply pow2_pos; lia).
  destruct (Z.eq_dec ex (-1074)) as [X|X]; destruct (Z.eq_dec ey (-1074)) as [Y|Y].
  - lia.
  - specialize (N2 ltac:(lia)).
    pose proof (digits_ge (Z.pos mx * Z.pos my) 52 ltac:(lia) ltac:(nia)). lia.
  - specialize (N1 ltac:(lia)).
    pose proof (digits_ge (Z.pos mx * Z.pos my) 52 ltac:(lia) ltac:(nia)). lia.
  - specialize (N1 ltac:(lia)). specialize (N2 ltac:(lia)).
    assert (2 ^ 104 <= Z.pos mx * Z.pos my).
    { change (2 ^ 104) with (2 ^ 52 * 2 ^ 52). apply Z.mul_le_mono_nonneg; lia. }
    pose proof (digits_ge (Z.pos mx * Z.pos my) 104 ltac:(lia) ltac:(lia)). lia.
Qed.

(** The product by a float that is not negative is monotone. *)
Theorem SFmul_mono c x y :
  valid_binary c = true -> valid_binary x = true -> valid_binary y = true ->
  is_nonneg c = true -> is_nonneg x = true -> is_nonneg y = true ->
  SFleb x y = true ->
  SFleb (SFmul prec emax c x) (SFmul prec emax c y) = true
  /\ is_nonneg_ext (SFmul prec emax c x) = true
  /\ is_nonneg_ext (SFmul prec emax c y) = true.
Proof.
  intros Vc Vx Vy Nc Nx Ny H.
  pose proof (proj1 (SFleb_val x y Vx Vy Nx Ny) H) as Hv.
  destruct c as [sc|[|]| |[|] mc ec]; try discriminate.
  - destruct x as [sx|[|]| |[|] mx ex]; try discriminate;
    destruct y as [sy|[|]| |[|] my ey]; try discriminate; cbn; auto.
  - destruct y as [sy|[|]| |[|] my ey]; try discriminate.
    + destruct x as [sx|[|]| |[|] mx ex]; try discriminate. cbn; auto.
    + pose proof (mul_fine mc ec my ey Vc Vy) as Fy.
      pose proof (round_model_nonneg_ext _ _ Fy) as Ey.
      destruct x as [sx|[|]| |[|] mx ex]; try discriminate.
      * rewrite SFmul_round. cbn [SFmul]. repeat split; try assumption.
        destruct (round_model false _ _) as [s|[|]| |[|] m e]; try discriminate; reflexivity.
      * pose proof (mul_fine mc ec mx ex Vc Vx) as Fx.
        rewrite !SFmul_round. repeat split; try assumption;
          [|apply round_model_nonneg_ext; exact Fx].
        apply round_model_le; try assumption.
        cbn [SFval] in Hv.
        destruct (valid_facts _ _ _ Vc) as (Mc & Ec & _).
        destruct (valid_facts _ _ _ Vx) as (Mx & Ex & _).
        destruct (valid_facts _ _ _ Vy) as (My & Ey' & _).
        apply (code_le_exact _ _ _ _ (1074 - ec)); try lia.
        replace (ec + ex + (1074 - ec)) with (ex + 1074) by lia.
        replace (ec + ey + (1074 - ec)) with (ey + 1074) by lia.
        rewrite <- !Z.mul_assoc. apply Z.mul_le_mono_nonneg_l; lia.
Qed.

(** *** Quotients *)

Lemma qcode_small k b :
  0 < b -> 0 <= k < b ->
  qcode k b = if k =? 0 then 0 else if 2 * k <? b then 1 else if 2 * k =? b then 2 else 3.
Proof.
  intros Hb Hk. unfold qcode.
  destruct (Z_lt_ge_dec (2 * k) b) as [L|L].
  - rewrite Z.div_small, Z.mod_small by lia. case_eqb; lia.
  - rewrite <- (Z.div_unique (2 * k) b 1 (2 * k - b)) by lia.
    rewrite <- (Z.mod_unique (2 * k) b 1 (2 * k - b)) by lia.
    case_eqb; lia.
Qed.

Lemma qcode_split a b :
  0 < b -> qcode a b = 4 * (a / b) + qcode (a mod b) b.
Proof.
  intros Hb. unfold qcode.
  pose proof (Z.div_mod a b ltac:(lia)) as E.
  set (q := a / b) in *. set (k := a mod b) in *.
  replace (2 * a) with (2 * k + (2 * q) * b) by lia.
  rewrite Z.div_add, Z.mod_add by lia. lia.
Qed.

Lemma new_location_code b k :
  0 < b -> 0 <= k < b -> loc_code (new_location b k) = qcode k b.
Proof.
  intros Hb Hk. rewrite qcode_small by assumption.
  unfold new_location. destruct (Z.even b) eqn:Ev.
  - unfold new_location_even. destruct (Z.eqb_spec k 0) as [E|E]; [reflexivity|].
    destruct (Z.compare_spec (2 * k) b); case_eqb; cbn [loc_code]; lia.
  - unfold new_location_odd. destruct (Z.eqb_spec k 0) as [E|E]; [reflexivity|].
    assert (Hodd : 2 * k <> b).
    { intros <-. rewrite Z.even_mul in Ev. discriminate. }
    destruct (Z.compare_spec (2 * k + 1) b); case_eqb; cbn [loc_code]; lia.
Qed.

Lemma div_code a b :
  0 <= a -> 0 < b -> 4 * (a / b) + loc_code (new_location b (a mod b)) = qcode a b.
Proof.
  intros Ha Hb. rewrite new_location_code by (try apply Z.mod_pos_bound; lia).
  symmetry. apply qcode_split. exact Hb.
Qed.

Lemma qcode_div4 a b : 0 < b -> qcode a b / 4 = a / b.
Proof.
  intros Hb. rewrite qcode_split by assumption.
  pose proof (Z.mod_pos_bound a b Hb) as Hk.
  rewrite (qcode_small _ _ Hb Hk).
  generalize (a / b); intros q. case_eqb; Z.div_mod_to_equations; lia.
Qed.

Lemma qcode_nonneg a b : 0 <= a -> 0 < b -> 0 <= qcode a b.
Proof.
  intros Ha Hb. unfold qcode. pose proof (Z.div_pos (2 * a) b ltac:(lia) Hb).
  case_eqb; lia.
Qed.

Lemma qcode_mono a1 a2 b : 0 < b -> a1 <= a2 -> qcode a1 b <= qcode a2 b.
Proof.
  intros Hb H. unfold qcode.
  assert (H2 : 2 * a1 <= 2 * a2) by lia.
  pose proof (Z.div_le_mono _ _ b Hb H2) as Hq.
  pose proof (Z.div_mod (2 * a1) b ltac:(lia)) as E1.
  pose proof (Z.div_mod (2 * a2) b ltac:(lia)) as E2.
  pose proof (Z.mod_pos_bound (2 * a1) b Hb) as B1.
  pose proof (Z.mod_pos_bound (2 * a2) b Hb) as B2.
  destruct (Z.eq_dec (2 * a1 / b) (2 * a2 / b)) as [E|E].
  - rewrite E in *. case_eqb; nia.
  - case_eqb; lia.
Qed.

Lemma qcode_scale a b c : 0 < b -> 0 < c -> qcode (a * c) (b * c) = qcode a b.
Proof.
  intros Hb Hc. unfold qcode.
  replace (2 * (a * c)) with ((2 * a) * c) by ring.
  rewrite Z.div_mul_cancel_r, Z.mul_mod_distr_r by lia.
  pose proof (Z.mod_pos_bound (2 * a) b Hb).
  case_eqb; nia.
Qed.

Lemma qcode_shift n a b :
  0 <= n -> 0 < b -> sticky_shift n (qcode a b) = qcode a (b * 2 ^ n).
Proof.
  intros Hn Hb. pose proof (pow2_pos n Hn) as Hp.
  unfold sticky_shift, qcode.
  rewrite <- (Z.div_div (2 * a) b (2 ^ n)) by lia.
  rewrite (Z.rem_mul_r (2 * a) b (2 ^ n)) by lia.
  pose proof (Z.mod_pos_bound (2 * a) b Hb) as Hk.
  set (A := 2 * a / b) in *. set (k := (2 * a) mod b) in *.
  rewrite Z.pow_add_r by lia. change (2 ^ 1) with 2.
  set (P := 2 ^ n) in *.
  pose proof (Z.div_mod A P ltac:(lia)) as EA.
  pose proof (Z.mod_pos_bound A P Hp) as BA.
  set (beta := if k =? 0 then 0 else 1).
  assert (Hbeta : 0 <= beta <= 1) by (unfold beta; case_eqb; lia).
  assert (E1 : (2 * A + beta) / (P * 2) = A / P).
  { symmetry. apply (Z.div_unique _ _ _ (2 * (A mod P) + beta)); nia. }
  assert (E2 : (2 * A + beta) mod (P * 2) = 2 * (A mod P) + beta).
  { symmetry. apply (Z.mod_unique _ _ (A / P)); nia. }
  rewrite E1, E2. unfold beta. clear E1 E2 EA Hbeta beta.
  generalize dependent (A / P). generalize dependent (A mod P). intros r Hr q.
  clearbody k. clear A. clearbody P.
  destruct (Z.eqb_spec k 0) as [K0|K0].
  - subst k. destruct (Z.eq_dec r 0) as [R0|R0].
    + subst r. rewrite !Z.mul_0_r. reflexivity.
    + assert (0 < b * r) by (apply Z.mul_pos_pos; lia). case_eqb; lia.
  - assert (0 <= b * r) by (apply Z.mul_nonneg_nonneg; lia). case_eqb; lia.
Qed.

Lemma div_exp_le mx ex my ey : 0 <= ex - ey - div_exp mx ex my ey.
Proof. unfold div_exp. lia. Qed.

Lemma SFdiv_round mx ex my ey :
  SFdiv prec emax (S754_finite false mx ex) (S754_finite false my ey)
  = round_model false (qcode (div_num mx ex my ey) (Zpos my)) (div_exp mx ex my ey).
Proof.
  cbn [SFdiv xorb]. unfold SFdiv_core_binary. rewrite fexp_fexp64.
  fold (div_exp mx ex my ey).
  pose proof (div_exp_le mx ex my ey) as Hs.
  assert (Em : forall s, 0 <= s ->
               match s with
               | Z0 => Zpos mx
               | Zpos _ => Z.shiftl (Zpos mx) s
               | Zneg _ => 0
               end = Zpos mx * 2 ^ s).
  { intros [|p|p] Hp; try lia.
    rewrite Z.shiftl_mul_pow2 by lia. reflexivity. }
  rewrite (Em _ Hs). fold (div_num mx ex my ey).
  assert (Hnum : 0 <= div_num mx ex my ey).
  { unfold div_num. apply Z.mul_nonneg_nonneg; [lia|]. apply Z.lt_le_incl, pow2_pos. exact Hs. }
  pose proof (div_code (div_num mx ex my ey) (Zpos my) Hnum ltac:(lia)) as Hc.
  unfold Z.div, Z.modulo in Hc.
  destruct (Z.div_eucl (div_num mx ex my ey) (Z.pos my)) as [q r] eqn:Hqr.
  assert (Hq : 0 <= q).
  { pose proof (Z.div_pos (div_num mx ex my ey) (Zpos my) Hnum ltac:(lia)) as Hd.
    unfold Z.div in Hd. rewrite Hqr in Hd. exact Hd. }
  rewrite binary_round_aux_model by exact Hq.
  rewrite Hc. reflexivity.
Qed.

Lemma fexp64_mono a b : a <= b -> fexp64 a <= fexp64 b.
Proof. unfold fexp64. lia. Qed.

Lemma div_fine mx ex my ey :
  fine (qcode (div_num mx ex my ey) (Zpos my)) (div_exp mx ex my ey).
Proof.
  pose proof (div_exp_le mx ex my ey) as Hs.
  assert (Hnum : 0 <= div_num mx ex my ey).
  { unfold div_num. apply Z.mul_nonneg_nonneg; [lia|]. apply Z.lt_le_incl, pow2_pos. exact Hs. }
  split; [apply qcode_nonneg; lia|].
  rewrite qcode_div4 by lia.
  apply Z.le_trans with (fexp64 (Zdigits2 (Zpos mx) + ex - (Zdigits2 (Zpos my) + ey)));
    [unfold div_exp; lia|].
  apply fexp64_mono.
  set (e' := div_exp mx ex my ey) in *. set (s := ex - ey - e') in *.
  destruct (digits_bounds (Zpos mx) ltac:(lia)) as (Dx & Lx & Ux).
  destruct (digits_bounds (Zpos my) ltac:(lia)) as (Dy & Ly & Uy).
  set (dx := Zdigits2 (Zpos mx)) in *. set (dy := Zdigits2 (Zpos my)) in *.
  assert (Hq : 0 <= div_num mx ex my ey / Zpos my) by (apply Z.div_pos; lia).
  pose proof (digits_nonneg (div_num mx ex my ey / Zpos my)) as Hdq.
  destruct (Z_lt_ge_dec (dx - 1 + s - dy) 0) as [Hk|Hk].
  - lia.
  - assert (Hlow : 2 ^ (dx - 1 + s - dy) <= div_num mx ex my ey / Zpos my).
    { apply Z.div_le_lower_bound; [lia|].
      unfold div_num. fold e'. fold s.
      apply Z.le_trans with (2 ^ dy * 2 ^ (dx - 1 + s - dy)).
      - apply Z.mul_le_mono_nonneg_r; [apply Z.lt_le_incl, pow2_pos; lia|lia].
      - rewrite <- Z.pow_add_r by lia.
        replace (dy + (dx - 1 + s - dy)) with ((dx - 1) + s) by lia.
        rewrite Z.pow_add_r by lia.
        apply Z.mul_le_mono_nonneg_r; [apply Z.lt_le_incl, pow2_pos; lia|lia]. }
    pose proof (digits_ge _ (dx - 1 + s - dy) ltac:(lia) Hlow). lia.
Qed.

(** The quotient by a positive float is monotone. *)
Theorem SFdiv_mono x y c :
  valid_binary x = true -> valid_binary y = true -> valid_binary c = true ->
  is_nonneg x = true -> is_nonneg y = true -> 0 < SFval c ->
  SFleb x y = true ->
  SFleb (SFdiv prec emax x c) (SFdiv prec emax y c) = true
  /\ is_nonneg_ext (SFdiv prec emax x c) = true
  /\ is_nonneg_ext (SFdiv prec emax y c) = true.
Proof.
  intros Vx Vy Vc Nx Ny Pc H.
  pose proof (proj1 (SFleb_val x y Vx Vy Nx Ny) H) as Hv.
  destruct c as [sc|[|]| |[|] mc ec]; cbn [SFval] in Pc; try lia.
  destruct y as [sy|[|]| |[|] my ey]; try discriminate.
  - destruct x as [sx|[|]| |[|] mx ex]; try discriminate. cbn; auto.
  - pose proof (div_fine my ey mc ec) as Fy.
    pose proof (round_model_nonneg_ext _ _ Fy) as Ey.
    destruct x as [sx|[|]| |[|] mx ex]; try discriminate.
    + rewrite SFdiv_round. cbn [SFdiv]. repeat split; try assumption.
      destruct (round_model false _ _) as [s|[|]| |[|] m e]; try discriminate; reflexivity.
    + pose proof (div_fine mx ex mc ec) as Fx.
      rewrite !SFdiv_round. repeat split; try assumption;
        [|apply round_model_nonneg_ext; exact Fx].
      apply round_model_le; try assumption.
      cbn [SFval] in Hv. unfold code_le.
      pose proof (div_exp_le mx ex mc ec) as Sx.
      pose proof (div_exp_le my ey mc ec) as Sy.
      set (e1 := div_exp mx ex mc ec) in *. set (e2 := div_exp my ey mc ec) in *.
      rewrite !qcode_shift by lia.
      set (L := Z.min e1 e2).
      rewrite <- (qcode_scale (div_num mx ex mc ec) _ (2 ^ (e1 - L)))
        by (try apply Z.mul_pos_pos; try apply pow2_pos; lia).
      rewrite <- (qcode_scale (div_num my ey mc ec) _ (2 ^ (e2 - L)))
        by (try apply Z.mul_pos_pos; try apply pow2_pos; lia).
      rewrite <- !Z.mul_assoc, <- !Z.pow_add_r by lia.
      replace (Z.max e1 e2 - e1 + (e1 - L)) with (Z.max e1 e2 - L) by lia.
      replace (Z.max e1 e2 - e2 + (e2 - L)) with (Z.max e1 e2 - L) by lia.
      apply qcode_mono; [apply Z.mul_pos_pos; [lia|apply pow2_pos; lia]|].
      unfold div_num. fold e1. fold e2.
      rewrite <- !Z.mul_assoc, <- !Z.pow_add_r by lia.
      destruct (valid_facts _ _ _ Vx) as (Mx & Ex & _).
      destruct (valid_facts _ _ _ Vy) as (My & Ey' & _).
      replace (ex - ec - e1 + (e1 - L)) with ((ex + 1074) + (- 1074 - ec - L)) by lia.
      replace (ey - ec - e2 + (e2 - L)) with ((ey + 1074) + (- 1074 - ec - L)) by lia.
      apply scale_le; try lia.
Qed.

(** *** Conversions from and to integers *)

Lemma SFtrunc_val x :
  valid_binary x = true -> is_nonneg x = true ->
  SFtrunc x = Some (SFval x / 2 ^ 1074).
Proof.
  intros V N. destruct x as [sx|[|]| |[|] m e]; try discriminate.
  - reflexivity.
  - destruct (valid_facts _ _ _ V) as (_ & E & _).
    cbn [SFtrunc SFval]. f_equal.
    destruct e as [|q|q].
    + rewrite Z.div_mul; [reflexivity|]. apply Z.pow_nonzero; lia.
    + rewrite Z.shiftl_mul_pow2, Z.pow_add_r, Z.mul_assoc by lia.
      rewrite Z.div_mul; [reflexivity|]. apply Z.pow_nonzero; lia.
    + rewrite Z.shiftr_div_pow2 by lia.
      rewrite (pow2_split (Z.neg q + 1074) 1074) by lia.
      replace (1074 - (Z.neg q + 1074)) with (- Z.neg q) by lia.
      rewrite Z.div_mul_cancel_r;
        try (apply Z.pow_nonzero; lia); try (pose proof (pow2_pos (- Z.neg q)); lia).
Qed.

Lemma shl_align_spec mx ex ex' :
  snd (shl_align mx ex ex') = Z.min ex ex'
  /\ Zpos (fst (shl_align mx ex ex')) = Zpos mx * 2 ^ (ex - Z.min ex ex').
Proof.
  unfold shl_align. destruct (ex' - ex) as [|d|d] eqn:E; cbn [fst snd].
  - rewrite Z.min_l by lia. rewrite Z.sub_diag. split; lia.
  - rewrite Z.min_l by lia. rewrite Z.sub_diag. split; lia.
  - rewrite Z.min_r by lia. split; [reflexivity|].
    replace (ex - ex') with (Zpos d) by lia.
    rewrite Pos.iter_swap_gen with (f := Zpos) (h := Z.mul 2).
    + rewrite <- (Z.shiftl_mul_pow2 (Zpos mx) (Zpos d)) by lia. reflexivity.
    + reflexivity.
Qed.

Lemma digits_mul_pow m k :
  0 < m -> 0 <= k -> Zdigits2 (m * 2 ^ k) = Zdigits2 m + k.
Proof.
  intros Hm Hk. destruct (digits_bounds m Hm) as (D & Lo & Hi).
  pose proof (pow2_pos k Hk). apply digits_unique; [|lia].
  replace (Zdigits2 m + k - 1) with ((Zdigits2 m - 1) + k) by lia.
  rewrite !Z.pow_add_r by lia. split.
  - apply Z.mul_le_mono_nonneg_r; lia.
  - apply Z.mul_lt_mono_pos_r; lia.
Qed.

Lemma binary_normalize_round p :
  let mz := fst (shl_align p 0 (fexp64 (Zdigits2 (Zpos p)))) in
  let ez := snd (shl_align p 0 (fexp64 (Zdigits2 (Zpos p)))) in
  binary_normalize prec emax (Zpos p) 0 false = round_model false (4 * Zpos mz) ez
  /\ fine (4 * Zpos mz) ez
  /\ Zpos mz * 2 ^ (ez + 1074) = Zpos p * 2 ^ 1074.
Proof.
  intros mz ez. cbn [binary_normalize]. unfold binary_round.
  change (Z.pos (digits2_pos p)) with (Zdigits2 (Zpos p)).
  rewrite Z.add_0_r, fexp_fexp64.
  destruct (shl_align_spec p 0 (fexp64 (Zdigits2 (Zpos p)))) as [E1 E2].
  fold mz in E2. fold ez in E1.
  destruct (shl_align p 0 (fexp64 (Zdigits2 (Z.pos p)))) as [mz' ez'] eqn:S.
  cbn [fst snd] in mz, ez. subst mz ez.
  rewrite binary_round_aux_model by lia. cbn [loc_code]. rewrite Z.add_0_r.
  destruct (digits_bounds (Zpos p) ltac:(lia)) as (D & _).
  assert (Hez : -52 <= ez' <= 0) by (unfold fexp64 in E1; lia).
  split; [reflexivity|]. split.
  - split; [lia|].
    replace (4 * Z.pos mz' / 4) with (Z.pos mz') by (Z.div_mod_to_equations; lia).
    rewrite E2, digits_mul_pow by lia.
    replace (Zdigits2 (Z.pos p) + (0 - Z.min 0 (fexp64 (Zdigits2 (Z.pos p)))) + ez')
      with (Zdigits2 (Z.pos p)) by lia. lia.
  - rewrite E2, <- Z.mul_assoc, <- Z.pow_add_r by lia. do 2 f_equal. lia.
Qed.

(** *** On the primitive floats *)

Lemma leb_val x y :
  nonneg_finite x -> nonneg_finite y -> ((x <=? y)%float = true <-> Fval x <= Fval y).
Proof.
  intros Hx Hy. rewrite FloatAxioms.leb_spec. apply SFleb_val; auto using Prim2SF_valid.
Qed.

Lemma SFltb_leb x y : SFltb x y = true -> SFleb x y = true.
Proof. unfold SFltb, SFleb. destruct (SFcompare x y) as [[| |]|]; congruence. Qed.

Lemma fin_ext_le x y :
  is_nonneg_ext (Prim2SF x) = true -> nonneg_finite y -> (x <=? y)%float = true -> nonneg_finite x.
Proof. intros Hx Hy H. rewrite FloatAxioms.leb_spec in H. exact (le_finite_nonneg _ _ Hx Hy H). Qed.

Lemma mul_mono c x y :
  nonneg_finite c -> nonneg_finite x -> nonneg_finite y -> (x <=? y)%float = true ->
  (c * x <=? c * y)%float = true
  /\ is_nonneg_ext (Prim2SF (c * x)) = true /\ is_nonneg_ext (Prim2SF (c * y)) = true.
Proof.
  intros Hc Hx Hy H. rewrite FloatAxioms.leb_spec in *. rewrite !FloatAxioms.mul_spec.
  apply SFmul_mono; auto using Prim2SF_valid.
Qed.

Lemma SFmul_comm x y : SFmul prec emax x y = SFmul prec emax y x.
Proof.
  destruct x as [sx|sx| |sx mx ex], y as [sy|sy| |sy my ey]; cbn [SFmul];
    rewrite ?(xorb_comm sx sy), ?(Pos.mul_comm mx my), ?(Z.add_comm ex ey); reflexivity.
Qed.

Lemma mul_comm x y : (x * y)%float = (y * x)%float.
Proof. apply Prim2SF_inj. rewrite !FloatAxioms.mul_spec. apply SFmul_comm. Qed.

Lemma div_mono x y c :
  nonneg_finite x -> nonneg_finite y -> 0 < Fval c -> (x <=? y)%float = true ->
  (x / c <=? y / c)%float = true
  /\ is_nonneg_ext (Prim2SF (x / c)) = true /\ is_nonneg_ext (Prim2SF (y / c)) = true.
Proof.
  intros Hx Hy Hc H. rewrite FloatAxioms.leb_spec in *. rewrite !FloatAxioms.div_spec.
  apply SFdiv_mono; auto using Prim2SF_valid.
Qed.

Lemma of_uint63_le n :
  0 <= n <= Long.LONG_MAX ->
  nonneg_finite (of_uint63 (of_Z n))
  /\ (of_uint63 (of_Z n) <=? of_uint63 (of_Z Long.LONG_MAX))%float = true.
Proof.
  intros Hn. unfold Long.LONG_MAX in *.
  assert (E : to_Z (of_Z n) = n).
  { rewrite of_Z_spec. apply Z.mod_small. change wB with (2 ^ 63). lia. }
  assert (Hbig : nonneg_finite (of_uint63 (of_Z (2 ^ 63 - 1)))) by reflexivity.
  assert (Hle : SFleb (Prim2SF (of_uint63 (of_Z n))) (Prim2SF (of_uint63 (of_Z (2 ^ 63 - 1)))) = true
                /\ is_nonneg_ext (Prim2SF (of_uint63 (of_Z n))) = true).
  { rewrite (of_uint63_spec (of_Z n)), E.
    change (Prim2SF (of_uint63 (of_Z (2 ^ 63 - 1)))) with (round_model false (4 * (2 ^ 63 - 1)) 0).
    destruct n as [|p|p]; try lia.
    - split; reflexivity.
    - destruct (binary_normalize_round p) as (R & F & V). rewrite R.
      split; [|apply round_model_nonneg_ext; exact F].
      apply round_model_le; [exact F|split; vm_compute; discriminate|].
      pose proof (shl_align_spec p 0 (fexp64 (Zdigits2 (Zpos p)))) as [E1 E2].
      destruct (digits_bounds (Zpos p) ltac:(lia)) as (D & _).
      apply (code_le_exact _ _ _ _ 1074); try lia.
      generalize dependent (snd (shl_align p 0 (fexp64 (Zdigits2 (Z.pos p))))).
      intros; unfold fexp64 in *; lia. }
  destruct Hle as [Hle Hext]. split.
  - exact (le_finite_nonneg _ _ Hext Hbig Hle).
  - rewrite FloatAxioms.leb_spec. exact Hle.
Qed.

(** *** The index of a percentile is defined and monotone *)

Lemma Fval_nonneg x : 0 <= Fval x.
Proof.
  unfold Fval. destruct (Prim2SF x) as [s|s| |[|] m e]; cbn [SFval]; try lia.
Qed.

Lemma index_float_facts n p q :
  0 <= n <= Long.LONG_MAX ->
  nonneg_finite p -> nonneg_finite q -> (p <=? q)%float = true -> (q <=? 100)%float = true ->
  let ip := (double_of_size_t n * p / 100)%float in
  let iq := (double_of_size_t n * q / 100)%float in
  nonneg_finite ip /\ nonneg_finite iq /\ Fval ip <= Fval iq /\ Fval iq <= 2 ^ 63 * 2 ^ 1074.
Proof.
  intros Hn Hp Hq Hpq Hq100.
  unfold double_of_size_t.
  destruct (Z.ltb_spec n (2 ^ 63)) as [_|Hbig]; [|unfold Long.LONG_MAX in Hn; lia].
  destruct (of_uint63_le n Hn) as [Hc Hc60].
  set (c := of_uint63 (of_Z n)) in *.
  set (c60 := of_uint63 (of_Z Long.LONG_MAX)) in *.
  assert (H100 : nonneg_finite 100) by reflexivity.
  assert (Hc60f : nonneg_finite c60) by reflexivity.
  (* c * 100 is finite, below 100 * 2^60 *)
  destruct (mul_mono 100 c c60 H100 Hc Hc60f Hc60) as (A1 & A2 & _).
  assert (Htop : nonneg_finite (100 * c60)) by reflexivity.
  pose proof (fin_ext_le _ _ A2 Htop A1) as Fc100'.
  assert (Fc100 : nonneg_finite (c * 100)) by (rewrite mul_comm; exact Fc100').
  (* c * q and c * p *)
  destruct (mul_mono c q 100 Hc Hq H100 Hq100) as (B1 & B2 & _).
  pose proof (fin_ext_le _ _ B2 Fc100 B1) as Fcq.
  destruct (mul_mono c p q Hc Hp Hq Hpq) as (C1 & C2 & _).
  pose proof (fin_ext_le _ _ C2 Fcq C1) as Fcp.
  (* the quotients *)
  assert (P100 : 0 < Fval 100) by reflexivity.
  destruct (div_mono (100 * c) (100 * c60) 100 Fc100' Htop P100 A1) as (D1 & D2 & _).
  assert (Ftop : nonneg_finite (100 * c60 / 100)) by reflexivity.
  pose proof (fin_ext_le _ _ D2 Ftop D1) as Fd100'.
  rewrite <- (mul_comm c 100) in D1, Fd100'.
  destruct (div_mono (c * q) (c * 100) 100 Fcq Fc100 P100 B1) as (E1 & E2 & _).
  pose proof (fin_ext_le _ _ E2 Fd100' E1) as Fdq.
  destruct (div_mono (c * p) (c * q) 100 Fcp Fcq P100 C1) as (G1 & G2 & _).
  pose proof (fin_ext_le _ _ G2 Fdq G1) as Fdp.
  cbv zeta. repeat split; try assumption.
  - apply leb_val; assumption.
  - apply (leb_val _ _ Fdq Fd100') in E1. apply (leb_val _ _ Fd100' Ftop) in D1.
    change (Fval (100 * c60 / 100)) with (2 ^ 63 * 2 ^ 1074) in D1. lia.
Qed.

Lemma size_t_of_double_val x :
  nonneg_finite x -> Fval x <= 2 ^ 63 * 2 ^ 1074 ->
  size_t_of_double x = Some (Fval x / 2 ^ 1074) /\ 0 <= Fval x / 2 ^ 1074 <= 2 ^ 63.
Proof.
  intros Hx Hb. unfold size_t_of_double.
  rewrite (SFtrunc_val _ (Prim2SF_valid x) Hx). fold (Fval x).
  pose proof (Fval_nonneg x) as H0.
  assert (P : 0 < 2 ^ 1074) by (apply pow2_pos; lia).
  assert (R : 0 <= Fval x / 2 ^ 1074 <= 2 ^ 63).
  { split; [apply Z.div_pos; lia|]. apply Z.div_le_upper_bound; lia. }
  split; [|exact R].
  destruct (Z.leb_spec 0 (Fval x / 2 ^ 1074)); [|lia].
  change Size.max with (2 ^ 64 - 1).
  destruct (Z.leb_spec (Fval x / 2 ^ 1074) (2 ^ 64 - 1)); [reflexivity|lia].
Qed.

(** The index of lines 125-126 is defined on the percentiles from 0 to 100
    and monotone in them. *)
Theorem percentile_index_mono n p q :
  0 <= n <= Long.LONG_MAX ->
  (0 <=? p)%float = true -> (p <=? q)%float = true -> (q <=? 100)%float = true ->
  exists a b, percentile_index n p = Some a /\ percentile_index n q = Some b
              /\ 0 <= a <= b /\ b <= 2 ^ 63.
Proof.
  intros Hn H0 Hpq Hq.
  assert (Fq : nonneg_finite q).
  { unfold nonneg_finite. rewrite FloatAxioms.leb_spec in *.
    change (Prim2SF 0) with (S754_zero false) in H0.
    change (Prim2SF 100) with (S754_finite false 7036874417766400 (-46)) in Hq.
    destruct (Prim2SF q) as [s|[|]| |[|] m e]; try discriminate; try reflexivity;
      destruct (Prim2SF p) as [s'|[|]| |[|] m' e']; discriminate. }
  assert (Fp : nonneg_finite p).
  { unfold nonneg_finite in *. rewrite FloatAxioms.leb_spec in *.
    change (Prim2SF 0) with (S754_zero false) in H0.
    destruct (Prim2SF p) as [s|[|]| |[|] m e]; try discriminate; try reflexivity.
    destruct (Prim2SF q) as [s'|[|]| |[|] m' e']; discriminate. }
  destruct (index_float_facts n p q Hn Fp Fq Hpq Hq) as (I1 & I2 & I3 & I4).
  destruct (size_t_of_double_val _ I1 ltac:(lia)) as [S1 R1].
  destruct (size_t_of_double_val _ I2 I4) as [S2 R2].
  exists (Fval (double_of_size_t n * p / 100) / 2 ^ 1074),
         (Fval (double_of_size_t n * q / 100) / 2 ^ 1074).
  unfold percentile_index. rewrite S1, S2.
  repeat split; try lia.
  apply Z.div_le_mono; [apply pow2_pos|]; lia.
Qed.

Lemma of_uint63_mono a b :
  0 <= a <= b -> b <= Long.LONG_MAX ->
  (of_uint63 (of_Z a) <=? of_uint63 (of_Z b))%float = true.
Proof.
  intros Hab Hb.
  destruct (of_uint63_le a ltac:(lia)) as [Fa _].
  destruct (of_uint63_le b ltac:(lia)) as [Fb _].
  unfold Long.LONG_MAX in Hb.
  assert (Ea : to_Z (of_Z a) = a).
  { rewrite of_Z_spec. apply Z.mod_small. change wB with (2 ^ 63). lia. }
  assert (Eb : to_Z (of_Z b) = b).
  { rewrite of_Z_spec. apply Z.mod_small. change wB with (2 ^ 63). lia. }
  rewrite FloatAxioms.leb_spec. unfold nonneg_finite in Fa, Fb. revert Fa Fb.
  rewrite !of_uint63_spec, Ea, Eb.
  destruct a as [|p|p]; try lia.
  - cbn [binary_normalize]. intros _.
    destruct (binary_normalize prec emax b 0 false) as [s|[|]| |[|] m e];
      try discriminate; reflexivity.
  - destruct b as [|q|q]; try lia. intros _ _.
    destruct (binary_normalize_round p) as (Rp & Fp & Vp).
    destruct (binary_normalize_round q) as (Rq & Fq & Vq).
    rewrite Rp, Rq. apply round_model_le; try assumption.
    pose proof (shl_align_spec p 0 (fexp64 (Zdigits2 (Zpos p)))) as [E1 _].
    pose proof (shl_align_spec q 0 (fexp64 (Zdigits2 (Zpos q)))) as [E2 _].
    generalize dependent (snd (shl_align p 0 (fexp64 (Zdigits2 (Z.pos p))))).
    generalize dependent (snd (shl_align q 0 (fexp64 (Zdigits2 (Z.pos q))))).
    intros eq Rq Fq Vq Eq ep Rp Fp Vp Ep.
    apply (code_le_exact _ _ _ _ 1074); unfold fexp64 in *; lia.
Qed.

(** *** Comparison, division by one, addition to zero *)

Lemma SFltb_asym x y : SFltb x y = true -> SFltb y x = false.
Proof.
  unfold SFltb.
  destruct x as [sx|[|]| |[|] mx ex], y as [sy|[|]| |[|] my ey]; cbn [SFcompare];
    try discriminate; try reflexivity.
  - rewrite (Z.compare_antisym ex ey).
    destruct (ex ?= ey); cbn [CompOpp]; try discriminate; try reflexivity.
    change (Pos.compare_cont Eq my mx) with (Pos.compare my mx).
    change (Pos.compare_cont Eq mx my) with (Pos.compare mx my).
    rewrite (Pos.compare_antisym mx my).
    destruct (Pos.compare mx my); cbn [CompOpp]; try discriminate; reflexivity.
  - rewrite (Z.compare_antisym ex ey).
    destruct (ex ?= ey); cbn [CompOpp]; try discriminate; try reflexivity.
    change (Pos.compare_cont Eq my mx) with (Pos.compare my mx).
    change (Pos.compare_cont Eq mx my) with (Pos.compare mx my).
    rewrite (Pos.compare_antisym mx my).
    destruct (Pos.compare mx my); cbn [CompOpp]; try discriminate; reflexivity.
Qed.

Lemma ltb_asym a b : (a <? b)%float = true -> (b <? a)%float = false.
Proof. rewrite !FloatAxioms.ltb_spec. apply SFltb_asym. Qed.







(** ** Percentile bands and indices *)

Lemma ltb_leb a b : (a <? b)%float = true -> (a <=? b)%float = true.
Proof. rewrite FloatAxioms.ltb_spec, FloatAxioms.leb_spec. apply SFltb_leb. Qed.

Lemma valid_band_fin lower upper :
  valid_band lower upper = true ->
  nonneg_finite lower /\ nonneg_finite upper /\ Fval lower <= Fval upper /\ Fval upper <= Fval 100.
Proof.
  unfold valid_band. intros H.
  apply andb_prop in H. destruct H as [H H3].
  apply andb_prop in H. destruct H as [H1 H2].
  assert (Fl : nonneg_finite lower).
  { unfold nonneg_finite. rewrite FloatAxioms.leb_spec in H1. rewrite FloatAxioms.ltb_spec in H2.
    change (Prim2SF 0) with (S754_zero false) in H1.
    destruct (Prim2SF lower) as [s|[|]| |[|] m e]; try discriminate; try reflexivity.
    destruct (Prim2SF upper) as [s'|[|]| |[|] m' e']; discriminate. }
  assert (Fu : nonneg_finite upper).
  { unfold nonneg_finite in *. rewrite FloatAxioms.ltb_spec in H2, H3.
    change (Prim2SF 100) with (S754_finite false 7036874417766400 (-46)) in H3.
    destruct (Prim2SF upper) as [s|[|]| |[|] m e]; try discriminate; try reflexivity;
      destruct (Prim2SF lower) as [s'|[|]| |[|] m' e']; discriminate. }
  repeat split; try assumption.
  - apply leb_val; [assumption..|]. apply ltb_leb. exact H2.
  - apply leb_val; [assumption|reflexivity|]. apply ltb_leb. exact H3.
Qed.

Lemma percentile_index_le n p q :
  0 <= n <= Long.LONG_MAX ->
  nonneg_finite p -> nonneg_finite q -> Fval p <= Fval q -> Fval q <= Fval 100 ->
  exists a b, percentile_index n p = Some a /\ percentile_index n q = Some b
              /\ 0 <= a <= b /\ b <= 2 ^ 63.
Proof.
  intros Hn Fp Fq Hpq Hq.
  apply percentile_index_mono; try assumption.
  - apply leb_val; [reflexivity|assumption|]. change (Fval 0) with 0. apply Fval_nonneg.
  - apply leb_val; assumption.
  - apply leb_val; [assumption|reflexivity|assumption].
Qed.

Lemma percentile_range_defined n lower upper :
  0 <= n <= Long.LONG_MAX -> valid_band lower upper = true ->
  exists lower0 upper0,
    percentile_index n lower = Some lower0 /\ percentile_index n upper = Some upper0
    /\ percentile_range n lower upper = Some (valid_range n lower0 upper0)
    /\ 0 <= lower0 <= upper0 /\ upper0 <= 2 ^ 63.
Proof.
  intros Hn Hb. destruct (valid_band_fin _ _ Hb) as (Fl & Fu & Hlu & Hu).
  destruct (percentile_index_le n lower upper Hn Fl Fu Hlu Hu) as (a & b & Ea & Eb & Hab & Hb63).
  exists a, b. unfold percentile_range. rewrite Ea, Eb. auto.
Qed.

(** ** The index range of lines 128-133 *)

Lemma valid_range_facts n lower0 upper0 :
  1 <= n <= Long.LONG_MAX -> 0 <= lower0 <= 2 ^ 63 -> 0 <= upper0 <= 2 ^ 63 ->
  let r := valid_range n lower0 upper0 in
  upper_index r = Z.min upper0 (n - 1)
  /\ 0 <= lower_index r <= upper_index r
  /\ upper_index r < n
  /\ sample_size r = Z.max 1 (upper_index r - lower0)
  /\ sample_size r = Z.max 1 (upper_index r - lower_index r)
  /\ (lower_index r = upper_index r <-> upper_index r = 0).
Proof.
  intros Hn Hl Hu. unfold Long.LONG_MAX in Hn.
  unfold valid_range, Size.sub, Size.wrap, Size.modulus. cbn [lower_index upper_index sample_size].
  assert (W : forall z, 0 <= z < 2 ^ 64 -> z mod 2 ^ 64 = z) by (intros; apply Z.mod_small; lia).
  set (upper := if upper0 >=? n then (n - 1) mod 2 ^ 64 else upper0).
  assert (Eu : upper = Z.min upper0 (n - 1)).
  { unfold upper. destruct (Z.geb_spec upper0 n); [rewrite W|]; lia. }
  set (lower := if lower0 >=? upper
                then if upper >? 0 then (upper - 1) mod 2 ^ 64 else 0
                else lower0).
  assert (El : lower = if lower0 >=? upper then Z.max 0 (upper - 1) else lower0).
  { unfold lower. destruct (Z.geb_spec lower0 upper); [|reflexivity].
    destruct (Z.gtb_spec upper 0); [rewrite W|]; lia. }
  assert (Hlu : 0 <= lower <= upper) by (rewrite El; destruct (Z.geb_spec lower0 upper); lia).
  rewrite (W (upper - lower)) by lia. clearbody lower upper.
  destruct (Z.ltb_spec (upper - lower) 1); destruct (Z.geb_spec lower0 upper);
    repeat split; lia.
Qed.

(** ** The summation loop *)

Lemma at_index_nth v i :
  0 <= i < size v -> exists x, at_index v i = Some x /\ nth_error v (Z.to_nat i) = Some x.
Proof.
  intros Hi. unfold at_index, size in *.
  destruct (Z.leb_spec 0 i); [|lia]. destruct (Z.ltb_spec i (Z.of_nat (length v))); [|lia].
  cbn [andb]. destruct (nth_error v (Z.to_nat i)) as [x|] eqn:E; [eauto|].
  apply nth_error_None in E. lia.
Qed.

Lemma skipn_cons_nth {A} (l : list A) k x :
  nth_error l k = Some x -> skipn k l = x :: skipn (S k) l.
Proof.
  revert k. induction l as [|y l IH]; intros [|k] H; cbn in *; try discriminate.
  - congruence.
  - apply IH. exact H.
Qed.

Lemma slice_step v i upper x :
  0 <= i < upper -> nth_error v (Z.to_nat i) = Some x ->
  slice v i upper = x :: slice v (i + 1) upper.
Proof.
  intros Hi Hx. unfold slice. rewrite (skipn_cons_nth _ _ _ Hx).
  replace (Z.to_nat (upper - i)) with (S (Z.to_nat (upper - (i + 1)))) by lia.
  replace (Z.to_nat (i + 1)) with (S (Z.to_nat i)) by lia. reflexivity.
Qed.

Lemma sum_loop_slice fuel v i upper sum :
  0 <= i <= upper -> upper <= size v -> size v <= Long.LONG_MAX ->
  (Z.to_nat (upper - i) <= fuel)%nat ->
  sum_loop fuel v i upper sum = Result (fold_left PrimFloat.add (slice v i upper) sum).
Proof.
  revert i sum. induction fuel as [|fuel IH]; intros i sum Hi Hu Hv Hf.
  - cbn [sum_loop]. destruct (Z.ltb_spec i upper); [lia|].
    unfold slice. replace (upper - i) with 0 by lia. reflexivity.
  - cbn [sum_loop]. destruct (Z.ltb_spec i upper) as [Hlt|Hge].
    + destruct (at_index_nth v i ltac:(lia)) as (x & Ea & En). rewrite Ea.
      assert (Es : Size.succ i = i + 1).
      { unfold Size.succ, Size.wrap, Size.modulus, Long.LONG_MAX in *.
        apply Z.mod_small. lia. }
      rewrite Es, IH by lia. rewrite (slice_step v i upper x) by (auto; lia).
      reflexivity.
    + unfold slice. replace (upper - i) with 0 by lia. reflexivity.
Qed.

(** ** Sorting *)

Lemma insert_sorted_length x l : length (insert_sorted x l) = S (length l).
Proof.
  induction l as [|y l IH]; cbn [insert_sorted]; [reflexivity|].
  destruct (y <? x)%float; cbn [length]; congruence.
Qed.

Lemma std_sort_length v : length (std_sort v) = length v.
Proof.
  induction v as [|x v IH]; cbn [std_sort]; [reflexivity|].
  rewrite insert_sorted_length, IH. reflexivity.
Qed.

Lemma std_sort_size v : size (std_sort v) = size v.
Proof. unfold size. rewrite std_sort_length. reflexivity. Qed.



Lemma insert_sorted_ascending x l :
  ascending l = true -> ascending (insert_sorted x l) = true.
Proof.
  induction l as [|y l IH]; intros H; [reflexivity|].
  cbn [insert_sorted]. destruct (y <? x)%float eqn:E.
  - specialize (IH ltac:(destruct l; [reflexivity|cbn [ascending] in H; apply andb_prop in H; apply H])).
    destruct l as [|z l]; cbn [insert_sorted ascending] in *.
    + rewrite (ltb_asym _ _ E). reflexivity.
    + apply andb_prop in H. destruct H as [Hzy Hl].
      destruct (z <? x)%float eqn:E2.
      * rewrite Hzy. exact IH.
      * rewrite (ltb_asym _ _ E). exact IH.
  - cbn [ascending]. cbn [ascending] in H. rewrite E. exact H.
Qed.

Lemma std_sort_ascending v : ascending (std_sort v) = true.
Proof.
  induction v as [|x v IH]; [reflexivity|].
  cbn [std_sort]. apply insert_sorted_ascending. exact IH.
Qed.

Lemma std_sort_sorted v : ascending v = true -> std_sort v = v.
Proof.
  induction v as [|x v IH]; intros H; [reflexivity|].
  cbn [std_sort]. rewrite IH by (destruct v; [reflexivity|cbn [ascending] in H; apply andb_prop in H; apply H]).
  destruct v as [|y v]; [reflexivity|].
  cbn [insert_sorted]. cbn [ascending] in H. apply andb_prop in H. destruct H as [H _].
  apply negb_true_iff in H. rewrite H. reflexivity.
Qed.

(** ** The estimator is total *)

(** The fuel of the loop is never used up. *)
Lemma sum_loop_fuel fuel v i upper sum :
  0 <= i -> size v <= Long.LONG_MAX ->
  (1 <= fuel)%nat -> (length v + 1 <= fuel + Z.to_nat i)%nat ->
  sum_loop fuel v i upper sum <> OutOfFuel.
Proof.
  revert i sum. induction fuel as [|fuel IH]; intros i sum Hi Hv H1 Hf; [lia|].
  cbn [sum_loop]. destruct (i <? upper); [|discriminate].
  unfold at_index. destruct (Z.leb_spec 0 i); [|discriminate].
  destruct (Z.ltb_spec i (size v)) as [Hlt|]; [|discriminate]. cbn [andb].
  destruct (nth_error v (Z.to_nat i)); [|discriminate].
  assert (Es : Size.succ i = i + 1).
  { unfold Size.succ, Size.wrap, Size.modulus, Long.LONG_MAX in *.
    apply Z.mod_small. lia. }
  rewrite Es. unfold size in *. apply IH; lia.
Qed.

Lemma size_t_of_double_range x z :
  size_t_of_double x = Some z -> 0 <= z <= Size.max.
Proof.
  unfold size_t_of_double. destruct (SFtrunc (Prim2SF x)) as [t|]; [|discriminate].
  destruct (Z.leb_spec 0 t), (Z.leb_spec t Size.max); cbn [andb]; try discriminate.
  intros E. injection E as <-. lia.
Qed.

Lemma estimate_total v lower upper :
  size v <= Long.LONG_MAX -> estimate v lower upper <> OutOfFuel.
Proof.
  intros Hv. unfold estimate, estimator, trimmed_mean, percentile_range. cbn [fst].
  destruct (percentile_index _ lower) as [l0|] eqn:El; [|discriminate].
  destruct (percentile_index _ upper) as [u0|] eqn:Eu; [|discriminate].
  apply size_t_of_double_range in El, Eu.
  match goal with
  | |- context [sum_loop ?f ?w ?i ?u ?s] =>
      pose proof (sum_loop_fuel f w i u s) as H; destruct (sum_loop f w i u s)
  end; try discriminate.
  elim H; try reflexivity; rewrite ?std_sort_size; try lia.
  unfold valid_range, Size.sub, Size.wrap, Size.modulus. cbn [lower_index].
  repeat match goal with
         | |- context [if ?b then _ else _] => destruct b
         end; try lia; apply Z.mod_pos_bound; lia.
Qed.

(** ** The estimator: safety (C1) *)

Lemma double_of_size_t_ge_1 n :
  1 <= n <= Long.LONG_MAX -> (1 <=? double_of_size_t n)%float = true.
Proof.
  intros Hn. unfold double_of_size_t.
  destruct (Z.ltb_spec n (2 ^ 63)) as [_|H]; [|unfold Long.LONG_MAX in Hn; lia].
  change 1%float with (of_uint63 (of_Z 1)). apply of_uint63_mono; lia.
Qed.

Lemma trimmed_mean_window v lower upper lower0 upper0 :
  1 <= size v <= Long.LONG_MAX ->
  percentile_range (size v) lower upper = Some (valid_range (size v) lower0 upper0) ->
  0 <= lower0 <= 2 ^ 63 -> 0 <= upper0 <= 2 ^ 63 ->
  let r := valid_range (size v) lower0 upper0 in
  trimmed_mean v lower upper
  = Result (fold_left PrimFloat.add (slice v (lower_index r) (upper_index r)) 0
            / double_of_size_t (sample_size r))%float.
Proof.
  intros Hv Hr Hl Hu r. unfold trimmed_mean. rewrite Hr. fold r.
  destruct (valid_range_facts (size v) lower0 upper0 Hv Hl Hu) as (_ & B1 & B2 & _).
  fold r in B1, B2.
  rewrite sum_loop_slice; [reflexivity|lia|lia|lia|].
  unfold size in *. lia.
Qed.

(** C1: for every vector of N >= 1 samples (N a [long]) and every band
    with 0 <= lower < upper < 100, the index computation is defined, the
    window after clamping lies in [0, N), every read of the summation loop
    is a read of an element, the divisor is at least 1, as a [size_t] and as
    the double the sum is divided by, and the estimator returns a result. *)
Theorem estimator_safe v lower upper :
  1 <= size v <= Long.LONG_MAX -> valid_band lower upper = true ->
  exists r result,
    percentile_range (size v) lower upper = Some r
    /\ 0 <= lower_index r <= upper_index r /\ upper_index r < size v
    /\ (forall i, lower_index r <= i < upper_index r ->
        exists x, at_index (std_sort v) i = Some x)
    /\ 1 <= sample_size r
    /\ (1 <=? double_of_size_t (sample_size r))%float = true
    /\ estimate v lower upper = Result result.
Proof.
  intros Hv Hb.
  destruct (percentile_range_defined (size v) lower upper ltac:(lia) Hb)
    as (l0 & u0 & _ & _ & Er & Hlu & Hu).
  destruct (valid_range_facts (size v) l0 u0 Hv ltac:(lia) ltac:(lia))
    as (_ & B1 & B2 & _ & B3 & _).
  set (r := valid_range (size v) l0 u0) in *.
  exists r. eexists. split; [exact Er|]. split; [exact B1|]. split; [exact B2|].
  split; [|split; [lia|split]].
  - intros i Hi. destruct (at_index_nth (std_sort v) i) as (x & Ex & _).
    + rewrite std_sort_size. lia.
    + exists x. exact Ex.
  - apply double_of_size_t_ge_1. lia.
  - unfold estimate, estimator. cbn [fst].
    apply trimmed_mean_window with (lower0 := l0) (upper0 := u0);
      rewrite ?std_sort_size; try lia. exact Er.
Qed.

Lemma estimator_safe_witness :
  exists result, estimate [10; 20; 30; 40; 50]%float 1%float 5%float = Result result.
Proof.
  destruct (estimator_safe [10; 20; 30; 40; 50]%float 1%float 5%float) as (r & result & H).
  - unfold size, Long.LONG_MAX. cbn. lia.
  - reflexivity.
  - exists result. apply H.
Defined.

(** ** The sample size grows with the band (C7) *)

(** C7: for every N >= 1 and all valid bands (l1, u1) and (l2, u2) with
    l2 <= l1 and u1 <= u2, both index ranges are defined and the sample
    size of the wider band is at least that of the narrower one. *)
Theorem sample_size_monotone n l1 u1 l2 u2 :
  1 <= n <= Long.LONG_MAX ->
  valid_band l1 u1 = true -> valid_band l2 u2 = true ->
  (l2 <=? l1)%float = true -> (u1 <=? u2)%float = true ->
  exists narrow wide,
    percentile_range n l1 u1 = Some narrow
    /\ percentile_range n l2 u2 = Some wide
    /\ sample_size narrow <= sample_size wide.
Proof.
  intros Hn B1 B2 Hl Hu.
  destruct (valid_band_fin _ _ B1) as (Fl1 & Fu1 & O1 & T1).
  destruct (valid_band_fin _ _ B2) as (Fl2 & Fu2 & O2 & T2).
  apply (leb_val _ _ Fl2 Fl1) in Hl. apply (leb_val _ _ Fu1 Fu2) in Hu.
  destruct (percentile_index_le n l2 l1 ltac:(lia) Fl2 Fl1 Hl ltac:(lia))
    as (a2 & a1 & Ea2 & Ea1 & Ha & Ha').
  destruct (percentile_index_le n u1 u2 ltac:(lia) Fu1 Fu2 Hu T2)
    as (b1 & b2 & Eb1 & Eb2 & Hb & Hb').
  exists (valid_range n a1 b1), (valid_range n a2 b2).
  unfold percentile_range. rewrite Ea1, Ea2, Eb1, Eb2.
  split; [reflexivity|]. split; [reflexivity|].
  destruct (valid_range_facts n a1 b1 Hn ltac:(lia) ltac:(lia)) as (U1 & _ & _ & S1 & _).
  destruct (valid_range_facts n a2 b2 Hn ltac:(lia) ltac:(lia)) as (U2 & _ & _ & S2 & _).
  rewrite S1, S2, U1, U2. lia.
Qed.

Lemma sample_size_monotone_witness :
  exists narrow wide,
    percentile_range 1000 5%float 20%float = Some narrow
    /\ percentile_range 1000 1%float 50%float = Some wide
    /\ sample_size narrow <= sample_size wide.
Proof.
  apply (sample_size_monotone 1000 5%float 20%float 1%float 50%float).
  - unfold Long.LONG_MAX. lia.
  - reflexivity.
  - reflexivity.
  - reflexivity.
  - reflexivity.
Defined.

(** ** The empty window (C10, C2) *)

(** C10: for every vector of N >= 1 samples and every valid band, when the
    window after adjustment is empty both its ends are 0, the loop adds
    nothing and the result is 0, whatever the samples. *)
Theorem empty_window_result v lower upper r :
  1 <= size v <= Long.LONG_MAX -> valid_band lower upper = true ->
  percentile_range (size v) lower upper = Some r ->
  lower_index r = upper_index r ->
  lower_index r = 0 /\ upper_index r = 0 /\ sample_size r = 1
  /\ slice (std_sort v) (lower_index r) (upper_index r) = []
  /\ estimate v lower upper = Result 0%float.
Proof.
  intros Hv Hb Hr He.
  destruct (percentile_range_defined (size v) lower upper ltac:(lia) Hb)
    as (l0 & u0 & _ & _ & Er & Hlu & Hu).
  rewrite Er in Hr. injection Hr as Hr.
  destruct (valid_range_facts (size v) l0 u0 Hv ltac:(lia) ltac:(lia))
    as (_ & B1 & B2 & _ & B3 & B4).
  rewrite Hr in *. apply B4 in He as Hz.
  assert (S1 : sample_size r = 1) by lia.
  assert (L0 : lower_index r = 0) by lia.
  repeat split; try assumption.
  - rewrite L0, Hz. reflexivity.
  - unfold estimate, estimator. cbn [fst].
    rewrite (trimmed_mean_window (std_sort v) lower upper l0 u0);
      rewrite ?std_sort_size; try lia; [|rewrite Er, Hr; reflexivity].
    rewrite Hr, S1, L0, Hz. reflexivity.
Qed.

Lemma empty_window_result_witness :
  estimate [10; 20; 30; 40; 50]%float 1%float 5%float = Result 0%float.
Proof.
  apply (empty_window_result [10; 20; 30; 40; 50]%float 1%float 5%float (mkRange 0 0 1)).
  - unfold size, Long.LONG_MAX. cbn. lia.
  - reflexivity.
  - reflexivity.
  - reflexivity.
Defined.



(** ** No iterations (C9) *)

Lemma percentile_index_zero p : nonneg_finite p -> percentile_index 0 p = Some 0.
Proof.
  unfold nonneg_finite, percentile_index, size_t_of_double. intros Hp.
  change (double_of_size_t 0) with 0%float.
  rewrite FloatAxioms.div_spec, FloatAxioms.mul_spec.
  change (Prim2SF 0) with (S754_zero false).
  change (Prim2SF 100) with (S754_finite false 7036874417766400 (-46)).
  destruct (Prim2SF p) as [s|[|]| |[|] m e]; try discriminate; reflexivity.
Qed.

Section NoIterations.

Import String.

(** C9: a count that parses to 0 is accepted and gives the sampler's loop
    no pass; with no sample the clamp of line 129 wraps [upper_index] to
    2^64 - 1, the sample size with it, and the first read of the loop, at
    index 0, is outside the empty vector. *)
Theorem zero_iterations_out_of_bounds lower upper :
  valid_band lower upper = true ->
  (forall NBITERATIONS, parse_iterations NBITERATIONS ["prog"; "0"]%string = inl 0)
  /\ (forall Kernel compute clock seconds w,
      fst (sampler Kernel compute clock seconds 0 w) = [])
  /\ percentile_range (size []) lower upper = Some (mkRange 0 (2 ^ 64 - 1) (2 ^ 64 - 1))
  /\ estimate [] lower upper = OutOfBounds 0.
Proof.
  intros Hb. destruct (valid_band_fin _ _ Hb) as (Fl & Fu & _).
  assert (E : percentile_range (size []) lower upper
              = Some (mkRange 0 (2 ^ 64 - 1) (2 ^ 64 - 1))).
  { unfold percentile_range. change (size []) with 0.
    rewrite !percentile_index_zero by assumption. reflexivity. }
  split; [reflexivity|]. split; [reflexivity|]. split; [exact E|].
  unfold estimate, estimator, trimmed_mean. cbn [fst std_sort]. rewrite E. reflexivity.
Qed.

Lemma zero_iterations_out_of_bounds_witness :
  estimate [] 1%float 10%float = OutOfBounds 0.
Proof.
  apply (zero_iterations_out_of_bounds 1%float 10%float). reflexivity.
Defined.

End NoIterations.

(** ** Running the estimator again (C8) *)

(** C8: on a vector that is already sorted the estimator leaves the vector
    as it is, and a second run on the vector the first one leaves gives
    the same result and the same vector: the result is a function of the
    samples and the band alone. *)
Theorem estimator_idempotent v lower upper :
  ascending v = true ->
  estimator v lower upper = (estimate v lower upper, v)
  /\ estimator (snd (estimator v lower upper)) lower upper = estimator v lower upper.
Proof.
  intros H. unfold estimate, estimator. cbn [fst snd].
  rewrite (std_sort_sorted (std_sort v)) by apply std_sort_ascending.
  rewrite (std_sort_sorted v H). split; reflexivity.
Qed.

Lemma estimator_idempotent_witness :
  estimator [1; 2; 3; 4; 5; 6; 7; 8; 9; 10]%float 10%float 90%float
  = (Result 5.5%float, [1; 2; 3; 4; 5; 6; 7; 8; 9; 10]%float).
Proof.
  destruct (estimator_idempotent [1; 2; 3; 4; 5; 6; 7; 8; 9; 10]%float 10%float 90%float)
    as [E _]; [reflexivity|].
  rewrite E. reflexivity.
Defined.

Lemma estimator_twice v lower upper :
  estimator (snd (estimator v lower upper)) lower upper = estimator v lower upper.
Proof.
  unfold estimator. cbn [snd].
  rewrite (std_sort_sorted (std_sort v)) by apply std_sort_ascending. reflexivity.
Qed.

(** ** The estimator and the algorithm of the specification (C5) *)






(** ** The result and the extreme samples (C3) *)














(** ** The sampler (C6) *)

Section SamplerFacts.

Variable Kernel : Type.
Variable compute : Kernel -> Kernel.
Variable clock : nat -> Z.
Variable seconds : Z -> double.

Lemma warmup_spec n (w : world Kernel) :
  kernel _ (warmup _ compute n w) = Nat.iter n compute (kernel _ w)
  /\ readings _ (warmup _ compute n w) = readings _ w
  /\ trace _ (warmup _ compute n w) = trace _ w ++ repeat Compute n.
Proof.
  revert w. induction n as [|n IH]; intros w.
  - cbn. rewrite app_nil_r. auto.
  - cbn [warmup]. destruct (IH (invoke _ compute w)) as (K & R & T).
    rewrite K, R, T. cbn [invoke kernel readings trace].
    repeat split.
    + rewrite Nat.iter_succ_r. reflexivity.
    + rewrite <- app_assoc. reflexivity.
Qed.

Lemma measure_spec n (w : world Kernel) acc :
  fst (measure _ compute clock seconds n w acc)
  = acc ++ map (sample_at clock seconds (readings _ w)) (seq 0 n)
  /\ kernel _ (snd (measure _ compute clock seconds n w acc))
     = Nat.iter n compute (kernel _ w)
  /\ readings _ (snd (measure _ compute clock seconds n w acc))
     = (readings _ w + 2 * n)%nat
  /\ trace _ (snd (measure _ compute clock seconds n w acc))
     = trace _ w ++ flat_map (timed_call clock (readings _ w)) (seq 0 n).
Proof.
  revert w acc. induction n as [|n IH]; intros w acc.
  - cbn. rewrite !app_nil_r. repeat split. lia.
  - cbn [measure now invoke kernel readings trace].
    match goal with
    | |- context [measure _ _ _ _ n ?w' ?acc'] =>
        destruct (IH w' acc') as (V & K & R & T)
    end.
    rewrite V, K, R, T. cbn [kernel readings trace].
    assert (Eseq : seq 0 (S n) = 0%nat :: map S (seq 0 n)).
    { cbn [seq]. rewrite <- seq_shift. reflexivity. }
    rewrite Eseq. cbn [map flat_map].
    assert (Es : forall i, sample_at clock seconds (S (S (readings _ w))) i
                           = sample_at clock seconds (readings _ w) (S i)).
    { intros i. unfold sample_at.
      replace (S (S (readings _ w)) + 2 * i)%nat with (readings _ w + 2 * S i)%nat by lia.
      reflexivity. }
    assert (Et : forall i, timed_call clock (S (S (readings _ w))) i
                           = timed_call clock (readings _ w) (S i)).
    { intros i. unfold timed_call.
      replace (S (S (readings _ w)) + 2 * i)%nat with (readings _ w + 2 * S i)%nat by lia.
      reflexivity. }
    rewrite map_map, flat_map_concat_map, (flat_map_concat_map _ (map S _)), map_map.
    rewrite (map_ext _ _ Es), (map_ext _ _ Et).
    repeat split.
    + rewrite <- app_assoc. cbn [app]. unfold sample_at at 2.
      replace (readings _ w + 2 * 0 + 1)%nat with (S (readings _ w)) by lia.
      replace (readings _ w + 2 * 0)%nat with (readings _ w) by lia. reflexivity.
    + rewrite Nat.iter_succ_r. reflexivity.
    + lia.
    + rewrite <- !app_assoc. cbn [app concat]. unfold timed_call at 2.
      replace (readings _ w + 2 * 0 + 1)%nat with (S (readings _ w)) by lia.
      replace (readings _ w + 2 * 0)%nat with (readings _ w) by lia. reflexivity.
Qed.

End SamplerFacts.

Lemma count_compute_app t1 t2 :
  count_compute (t1 ++ t2) = (count_compute t1 + count_compute t2)%nat.
Proof. unfold count_compute. rewrite filter_app, length_app. reflexivity. Qed.

Lemma count_compute_repeat n : count_compute (repeat Compute n) = n.
Proof.
  unfold count_compute. induction n as [|n IH]; [reflexivity|].
  cbn [repeat filter length]. rewrite IH. reflexivity.
Qed.

Lemma count_compute_timed clock k n :
  count_compute (flat_map (timed_call clock k) (seq 0 n)) = n.
Proof.
  generalize 0%nat. induction n as [|n IH]; intros s; [reflexivity|].
  cbn [seq flat_map]. rewrite count_compute_app, IH. reflexivity.
Qed.

(** C6: for every count N >= 1 the sampler calls the kernel 50 times,
    a constant of the program, with no reading of the clock, then N times
    between two readings each; it returns N samples, the i-th being the
    time in seconds between the two readings around the i-th timed call,
    in the order of the calls. *)
Theorem sampler_samples (Kernel : Type) (compute : Kernel -> Kernel)
  (clock : nat -> Z) (seconds : Z -> double) (N : Z) (w : world Kernel) :
  1 <= N ->
  let run := sampler Kernel compute clock seconds N w in
  let k := readings _ w in
  fst run = map (sample_at clock seconds k) (seq 0 (Z.to_nat N))
  /\ size (fst run) = N
  /\ trace _ (snd run)
     = trace _ w ++ repeat Compute 50 ++ flat_map (timed_call clock k) (seq 0 (Z.to_nat N))
  /\ kernel _ (snd run) = Nat.iter (Z.to_nat N) compute (Nat.iter 50 compute (kernel _ w))
  /\ Z.of_nat (count_compute (trace _ (snd run)))
     = Z.of_nat (count_compute (trace _ w)) + 50 + N.
Proof.
  intros HN run k. unfold run, sampler.
  destruct (warmup_spec Kernel compute 50 w) as (K & R & T).
  destruct (measure_spec Kernel compute clock seconds (Z.to_nat N)
              (warmup Kernel compute 50 w) []) as (V & K' & _ & T').
  rewrite V, K', T', K, R, T. cbn [app]. fold k.
  repeat split.
  - unfold size. rewrite length_map, length_seq. lia.
  - rewrite <- app_assoc. reflexivity.
  - rewrite <- app_assoc, !count_compute_app, count_compute_repeat, count_compute_timed. lia.
Qed.

Lemma sampler_samples_witness :
  fst (sampler nat S (fun k => 1000 * Z.of_nat k)
         (fun t => (of_uint63 (of_Z t) / 1000000000)%float) 3
         (mkWorld nat 0%nat 0%nat []))
  = [0x1.0c6f7a0b5ed8dp-20; 0x1.0c6f7a0b5ed8dp-20; 0x1.0c6f7a0b5ed8dp-20]%float
  /\ trace _ (snd (sampler nat S (fun k => 1000 * Z.of_nat k)
                     (fun t => (of_uint63 (of_Z t) / 1000000000)%float) 3
                     (mkWorld nat 0%nat 0%nat [])))
     = repeat Compute 50
       ++ [Now 0; Compute; Now 1000; Now 2000; Compute; Now 3000;
           Now 4000; Compute; Now 5000].
Proof.
  destruct (sampler_samples nat S (fun k => 1000 * Z.of_nat k)
              (fun t => (of_uint63 (of_Z t) / 1000000000)%float) 3
              (mkWorld nat 0%nat 0%nat [])) as (E & _ & T & _).
  - lia.
  - split; [rewrite E; reflexivity|rewrite T; reflexivity].
Defined.

(** ** The command line (C4) *)

Section MainFacts.

Import String.

Variable NBITERATIONS : Z.
Variable Kernel : Type.
Variable fresh : Kernel.
Variable compute : Kernel -> Kernel.
Variable clock : nat -> Z.
Variable seconds : Z -> double.
Variable strtod : String.string -> C.strtod_result.

(** Whatever [main] writes to [std::cerr] it writes before the first call
    of the kernel, and it returns 1 then. *)
Lemma main_rejected_before_kernel argv :
  cerr (main NBITERATIONS Kernel fresh compute clock seconds strtod argv) <> [] ->
  ending_of (main NBITERATIONS Kernel fresh compute clock seconds strtod argv) = Return 1
  /\ events (main NBITERATIONS Kernel fresh compute clock seconds strtod argv) = [].
Proof.
  unfold main.
  destruct (4 <? List.length argv)%nat; [intros _; split; reflexivity|].
  destruct (parse_iterations NBITERATIONS argv) as [N|m]; [|intros _; split; reflexivity].
  destruct (parse_upper strtod argv) as [up|m]; [|intros _; split; reflexivity].
  destruct (parse_lower strtod argv) as [lo|m]; [|intros _; split; reflexivity].
  destruct (up <=? lo)%float; [intros _; split; reflexivity|].
  unfold benchmark. destruct (reserve_throws N); [intros H; elim H; reflexivity|].
  destruct (sampler _ _ _ _ N _) as [measurements w].
  destruct (estimate measurements lo up); intros H; elim H; reflexivity.
Qed.

(** A lower percentile that is not below the upper one is rejected. *)
Lemma main_lower_not_less :
  strtod "5"%string = C.mkStrtod 5%float 1 false ->
  strtod "10"%string = C.mkStrtod 10%float 2 false ->
  main NBITERATIONS Kernel fresh compute clock seconds strtod ["prog"; "1000"; "5"; "10"]%string
  = mkRun (Return 1) [LowerNotLess] [] [].
Proof.
  intros E5 E10. unfold main, parse_upper, parse_lower. cbn [nth_error List.length].
  rewrite E5, E10. reflexivity.
Qed.

(** Neither range check of a percentile catches a NaN, which [strtod]
    reads from "nan": the comparisons of lines 46 and 72 are all false on
    it. *)
Lemma main_nan_percentile :
  strtod "nan"%string = C.mkStrtod nan 3 false ->
  main NBITERATIONS Kernel fresh compute clock seconds strtod ["prog"; "1"; "nan"]%string
  = mkRun (Undefined BadConversion) [] []
      (repeat Compute 50 ++ [Now (clock 0); Compute; Now (clock 1)]).
Proof.
  intros E. unfold main, parse_upper, parse_lower. cbn [nth_error List.length].
  rewrite E. reflexivity.
Qed.

(** A negative count is not rejected either: the kernel is warmed up, then
    [reserve] throws. *)
Lemma main_negative_iterations :
  main NBITERATIONS Kernel fresh compute clock seconds strtod ["prog"; "-3"]%string
  = mkRun Terminate [] [] (repeat Compute 50).
Proof. reflexivity. Qed.

(** C4: the count of iterations is not checked against 0.  With the
    arguments "prog" and "0" nothing is written to [std::cerr], the kernel
    is called 50 times, and the estimator reads index 0 of an empty vector. *)
Theorem main_accepts_zero_iterations :
  let run := main NBITERATIONS Kernel fresh compute clock seconds strtod
               ["prog"; "0"]%string in
  run = mkRun (Undefined (OutOfBounds 0)) [] [] (repeat Compute 50)
  /\ count_compute (events run) = 50%nat.
Proof. split; reflexivity. Qed.

End MainFacts.
